(** * Rally Racing Manager: the race simulator and its settlement

    A shallow embedding of the "Start race!" handler of [src/app.py]
    (lines 179-271) and of the tables it reads and writes (lines 39-87).

    Numbers.  The arithmetic of the handler is embedded twice.  Over exact
    rationals ([Q], compared with [==], [<] and [<=]): [effective_speed],
    [run_car], [prize_table] and the handler [start_race]; bounds, orders
    and the balance equations are stated there.  Over binary64 (module
    [F64]; a double is the rational it stands for, [fl] rounds to the
    nearest double, ties to even): the simulator and the allocator, where
    what a result records, its rounded speed, time and prize, and the
    ranking that follows are stated to the last digit.  Python's
    [round(x, n)] is round-half-to-even on the n-th decimal digit of the
    value it is given.  Infinities and NaN are outside both models; so are
    the sums that pandas takes in binary64 during settlement and the
    coercion of a stored value to the scale of its column.  The team id of
    a balance update passes through a float64 row (line 258).

    Randomness.  The process-global NumPy generator is a tape of raw draws
    with a cursor; [normal], [rand] and [uniform] each read one draw.

    Store.  The Snowflake session is a committed store, an optional open
    transaction and a count of the statements issued so far; a fault oracle
    says which statements raise. *)

From Stdlib Require Import QArith Qround Lqa Lia ZArith List String Bool.
From Stdlib Require Import Permutation Sorted.
From Stdlib Require Import Ascii DecimalString DecimalZ.
From Stdlib Require Import Qabs Qpower.
Import ListNotations.

Open Scope Q_scope.

(** ** Python arithmetic on floats *)

Definition Qlt_bool (x y : Q) : bool := negb (Qle_bool y x).

(** [max(a, b)] keeps [a] unless [b > a]; [min(a, b)] keeps [a] unless
    [b < a]. *)
Definition py_max (a b : Q) : Q := if Qlt_bool a b then b else a.
Definition py_min (a b : Q) : Q := if Qlt_bool b a then b else a.

Definition round_half_even (y : Q) : Z :=
  let f := Qfloor y in
  let d := y - inject_Z f in
  if Qlt_bool d (1 # 2) then f
  else if Qlt_bool (1 # 2) d then (f + 1)%Z
  else if Z.even f then f else (f + 1)%Z.

(** [round(x, ndigits)] *)
Definition round (x : Q) (ndigits : nat) : Q :=
  let scale := inject_Z (10 ^ Z.of_nat ndigits) in
  inject_Z (round_half_even (x * scale)) / scale.

(** [l[i]] for a Python list: a negative index counts from the end, an index
    out of range raises [IndexError] (here [None]). *)
Definition py_getitem {A : Type} (l : list A) (i : Z) : option A :=
  let n := Z.of_nat (List.length l) in
  let j := if (i <? 0)%Z then (i + n)%Z else i in
  if ((0 <=? j) && (j <? n))%Z then nth_error l (Z.to_nat j) else None.

(** [enumerate(l, start=i)] *)
Fixpoint enumerate {A : Type} (l : list A) (start : Z) : list (Z * A) :=
  match l with
  | [] => []
  | x :: l' => (start, x) :: enumerate l' (start + 1)%Z
  end.

(** [sum] of a float column, accumulated from the left. *)
Definition Qsum (l : list Q) : Q := fold_left Qplus l 0.

(** ** Binary64

    A double is the rational it stands for.  [fl] rounds a rational to the
    nearest double, ties to even, subnormals included; there is no
    overflow to an infinity in the model.  The four operations of the
    source on doubles are the exact operation followed by [fl]. *)

(** [floor(log2 x)] for a positive [x]. *)
Definition binade (x : Q) : Z :=
  let k := (Z.log2 (Qnum x) - Z.log2 (Zpos (Qden x)))%Z in
  if Qle_bool (2 ^ k) x then k else (k - 1)%Z.

Definition fl (x : Q) : Q :=
  if Qeq_bool x 0 then 0
  else
    let a := Qabs x in
    let e := Z.max (binade a - 52) (-1074) in
    let v := inject_Z (round_half_even (a / 2 ^ e)) * 2 ^ e in
    if Qlt_bool x 0 then - v else v.

Definition fadd (a b : Q) : Q := fl (a + b).
Definition fsub (a b : Q) : Q := fl (a - b).
Definition fmul (a b : Q) : Q := fl (a * b).
Definition fdiv (a b : Q) : Q := fl (a / b).

(** [round(x, ndigits)] on a double: the decimal nearest to the value of
    the double, ties to even, read back as a double. *)
Definition round64 (x : Q) (ndigits : nat) : Q := fl (round x ndigits).

(** [int(x)]: towards zero. *)
Definition py_int (x : Q) : Z :=
  if Qlt_bool x 0 then Qceiling x else Qfloor x.

(** ** The random generator *)

Record Rng : Type := mkRng { tape : nat -> Q; cursor : nat }.

Definition draw (g : Rng) : Q * Rng :=
  (tape g (cursor g), mkRng (tape g) (S (cursor g))).

(** [np.random.normal(loc, scale)]: a standard normal draw, shifted and
    scaled. *)
Definition np_random_normal (loc scale : Q) (g : Rng) : Q * Rng :=
  let (z, g') := draw g in (loc + scale * z, g').

(** [np.random.rand()] *)
Definition np_random_rand (g : Rng) : Q * Rng := draw g.

(** [np.random.uniform(low, high)] *)
Definition np_random_uniform (low high : Q) (g : Rng) : Q * Rng :=
  let (u, g') := draw g in (low + (high - low) * u, g').

(** ** Tables of the store (lines 43-84) *)

Module Teams.
Record row : Type := mk {
  TEAM_ID : Z;
  TEAM_NAME : string;
  MEMBERS : string;
  BUDGET : Q
}.
End Teams.

Module Cars.
Record row : Type := mk {
  CAR_ID : Z;
  CAR_NAME : string;
  TOP_SPEED_KMH : Q;
  ACCEL_0_100_S : Q;
  RELIABILITY : Q;
  HANDLING : Q;
  WEIGHT_KG : Q;
  TEAM_ID : option Z
}.
End Cars.

Module Races.
Record row : Type := mk {
  RACE_UID : string;
  TRACK_NAME : string;
  DISTANCE_KM : Q;
  FEE_USD : Q;
  PRIZE_POOL_USD : Q
}.
End Races.

Module RaceResults.
Record row : Type := mk {
  RACE_UID : string;
  CAR_ID : Z;
  TEAM_ID : Z;
  FINISH_TIME_MIN : Q;
  AVG_SPEED_KMH : Q;
  POSITION : Z;
  PRIZE_USD : Q
}.
End RaceResults.

Record Store : Type := mkStore {
  TEAMS : list Teams.row;
  CARS : list Cars.row;
  RACES : list Races.row;
  RACE_RESULTS : list RaceResults.row
}.

(** A row of the [cars] frame of line 190: [CARS C JOIN TEAMS T]. *)
Module CarsDf.
Record row : Type := mk {
  CAR_ID : Z;
  CAR_NAME : string;
  TOP_SPEED_KMH : Q;
  ACCEL_0_100_S : Q;
  RELIABILITY : Q;
  HANDLING : Q;
  WEIGHT_KG : Q;
  TEAM_ID : Z;
  TEAM_NAME : string
}.
End CarsDf.

Definition join_row (c : Cars.row) (t : Teams.row) : CarsDf.row :=
  CarsDf.mk (Cars.CAR_ID c) (Cars.CAR_NAME c) (Cars.TOP_SPEED_KMH c)
    (Cars.ACCEL_0_100_S c) (Cars.RELIABILITY c) (Cars.HANDLING c)
    (Cars.WEIGHT_KG c) (Teams.TEAM_ID t) (Teams.TEAM_NAME t).

Definition team_matches (c : Cars.row) (t : Teams.row) : bool :=
  match Cars.TEAM_ID c with
  | Some i => (Teams.TEAM_ID t =? i)%Z
  | None => false
  end.

(** The inner join on [T.TEAM_ID = C.TEAM_ID]: a car whose team is NULL,
    or names no team, yields no row.  The query has no ORDER BY; the rows
    are taken in car order. *)
Definition select_cars_join_teams (db : Store) : list CarsDf.row :=
  flat_map
    (fun c => map (join_row c) (filter (team_matches c) (TEAMS db)))
    (CARS db).

(** ** The performance model (lines 205-218) *)

Definition accel_factor (accel : Q) : Q :=
  py_max 0.8 (py_min 1.2 (1.4 - 0.1 * accel)).

Definition handling_factor (hand : Q) : Q := 0.9 + hand / 1000.0.

Definition effective_speed (top accel rel hand : Q) (g : Rng) : Q * Rng :=
  let (randomness, g1) := np_random_normal 1.0 0.07 g in
  let speed :=
    0.7 * top * accel_factor accel * handling_factor hand * randomness in
  let (u, g2) := np_random_rand g1 in
  let (speed', g3) :=
    if Qlt_bool rel u
    then let (k, g3) := np_random_uniform 0.7 0.9 g2 in (speed * k, g3)
    else (speed, g2) in
  (py_max 60.0 (py_min speed' top), g3).

(** ** The simulator (lines 203-231) *)

(** A result dict as appended at line 220. *)
Record Finisher : Type := mkFinisher {
  CAR_ID : Z;
  CAR_NAME : string;
  TEAM_ID : Z;
  TEAM_NAME : string;
  AVG_SPEED_KMH : Q;
  FINISH_TIME_MIN : Q
}.

(** The same dict once line 231 has set its position, and once line 235
    has set its prize. *)
Record Ranked : Type := mkRanked { finisher : Finisher; POSITION : Z }.
Record Result : Type := mkResult { ranked : Ranked; PRIZE_USD : Q }.

(** One iteration of the loop of line 204, in exact arithmetic
    ([F64.run_car] is the same loop in binary64).  The division of line
    219 cannot raise: the speed is at least 60 ([effective_speed_floor]). *)
Definition run_car (distance : Q) (row : CarsDf.row) (g : Rng)
  : Finisher * Rng :=
  let top := CarsDf.TOP_SPEED_KMH row in
  let accel := CarsDf.ACCEL_0_100_S row in
  let rel := CarsDf.RELIABILITY row in
  let hand := CarsDf.HANDLING row in
  let (speed, g') := effective_speed top accel rel hand g in
  let time_min := (distance / speed) * 60.0 in
  (mkFinisher (CarsDf.CAR_ID row) (CarsDf.CAR_NAME row)
     (CarsDf.TEAM_ID row) (CarsDf.TEAM_NAME row)
     (round speed 2) (round time_min 3), g').

Fixpoint run_cars (distance : Q) (cars : list CarsDf.row) (g : Rng)
  : list Finisher * Rng :=
  match cars with
  | [] => ([], g)
  | row :: cars' =>
      let (r, g1) := run_car distance row g in
      let (rs, g2) := run_cars distance cars' g1 in
      (r :: rs, g2)
  end.

(** [results.sort(key=...)]: Python's sort compares keys with [<] only and
    is stable; insertion from the right, each element placed ahead of the
    first one whose key is not smaller, gives that order. *)
Fixpoint insert_by_time (r : Finisher) (l : list Finisher) : list Finisher :=
  match l with
  | [] => [r]
  | x :: l' =>
      if Qlt_bool (FINISH_TIME_MIN x) (FINISH_TIME_MIN r)
      then x :: insert_by_time r l'
      else r :: l
  end.

Definition sort_by_time (l : list Finisher) : list Finisher :=
  fold_right insert_by_time [] l.

(** Lines 230-231: each dict of [enumerate(results, start)] gets its
    index as position. *)
Definition number (l : list Finisher) (start : Z) : list Ranked :=
  map (fun ir => mkRanked (snd ir) (fst ir)) (enumerate l start).

Definition assign_positions (l : list Finisher) : list Ranked := number l 1.

(** [simulate]: the ranked results and the generator left behind. *)
Definition simulate (distance : Q) (cars : list CarsDf.row) (g : Rng)
  : list Ranked * Rng :=
  let (results, g') := run_cars distance cars g in
  (assign_positions (sort_by_time results), g').

(** ** The prize allocator (lines 233-235) *)

Definition prize_split : list Q := [0.6; 0.3; 0.1].

(** Line 233, in exact arithmetic ([F64.prize_table] is the same line in
    binary64). *)
Definition prize_table (prize_pool : Q) (split : list Q) : list Q :=
  map (fun p => round (prize_pool * p) 2) split.

Definition prize_of (prizes : list Q) (r : Ranked) : option Q :=
  if (POSITION r <=? Z.of_nat (List.length prizes))%Z
  then py_getitem prizes (POSITION r - 1)
  else Some 0.0.

Fixpoint assign_prizes (prizes : list Q) (l : list Ranked)
  : option (list Result) :=
  match l with
  | [] => Some []
  | r :: l' =>
      match prize_of prizes r with
      | None => None
      | Some x =>
          match assign_prizes prizes l' with
          | None => None
          | Some rs => Some (mkResult r x :: rs)
          end
      end
  end.

Definition allocate (results : list Ranked) (prize_pool : Q) (split : list Q)
  : option (list Result) :=
  assign_prizes (prize_table prize_pool split) results.


(** ** The simulator and the allocator in binary64 (lines 203-235)

    The same lines with every operation rounded as the interpreter rounds
    it.  A literal is the double nearest to its decimal; [float(...)] of a
    stored NUMBER and the value of an input widget are the doubles nearest
    to them; a raw draw of the tape is read as a double.  Comparisons,
    [max], [min], the sort and the indexing are those of the exact model:
    they are exact on doubles. *)
Module F64.

Definition np_random_normal (loc scale : Q) (g : Rng) : Q * Rng :=
  let (z, g') := draw g in (fadd loc (fmul scale (fl z)), g').

Definition np_random_rand (g : Rng) : Q * Rng :=
  let (u, g') := draw g in (fl u, g').

Definition np_random_uniform (low high : Q) (g : Rng) : Q * Rng :=
  let (u, g') := draw g in (fadd low (fmul (fsub high low) (fl u)), g').

(** Line 210. *)
Definition accel_factor (accel : Q) : Q :=
  py_max (fl 0.8) (py_min (fl 1.2) (fsub (fl 1.4) (fmul (fl 0.1) accel))).

(** Line 211. *)
Definition handling_factor (hand : Q) : Q :=
  fadd (fl 0.9) (fdiv hand (fl 1000.0)).

(** Lines 212-218; the product of line 214 associates to the left. *)
Definition effective_speed (top accel rel hand : Q) (g : Rng) : Q * Rng :=
  let (randomness, g1) := np_random_normal (fl 1.0) (fl 0.07) g in
  let speed :=
    fmul (fmul (fmul (fmul (fl 0.7) top) (accel_factor accel))
            (handling_factor hand))
      randomness in
  let (u, g2) := np_random_rand g1 in
  let (speed', g3) :=
    if Qlt_bool rel u
    then let (k, g3) := np_random_uniform (fl 0.7) (fl 0.9) g2 in
         (fmul speed k, g3)
    else (speed, g2) in
  (py_max (fl 60.0) (py_min speed' top), g3).

(** Line 219. *)
Definition time_min (distance speed : Q) : Q :=
  fmul (fdiv (fl distance) speed) (fl 60.0).

(** One iteration of the loop of line 204. *)
Definition run_car (distance : Q) (row : CarsDf.row) (g : Rng)
  : Finisher * Rng :=
  let top := fl (CarsDf.TOP_SPEED_KMH row) in
  let accel := fl (CarsDf.ACCEL_0_100_S row) in
  let rel := fl (CarsDf.RELIABILITY row) in
  let hand := fl (CarsDf.HANDLING row) in
  let (speed, g') := effective_speed top accel rel hand g in
  (mkFinisher (CarsDf.CAR_ID row) (CarsDf.CAR_NAME row)
     (CarsDf.TEAM_ID row) (CarsDf.TEAM_NAME row)
     (round64 speed 2) (round64 (time_min distance speed) 3), g').

Fixpoint run_cars (distance : Q) (cars : list CarsDf.row) (g : Rng)
  : list Finisher * Rng :=
  match cars with
  | [] => ([], g)
  | row :: cars' =>
      let (r, g1) := run_car distance row g in
      let (rs, g2) := run_cars distance cars' g1 in
      (r :: rs, g2)
  end.

Definition simulate (distance : Q) (cars : list CarsDf.row) (g : Rng)
  : list Ranked * Rng :=
  let (results, g') := run_cars distance cars g in
  (assign_positions (sort_by_time results), g').

(** Line 187. *)
Definition prize_split : list Q := [0.6; 0.3; 0.1].

(** Line 233. *)
Definition prize_table (prize_pool : Q) (split : list Q) : list Q :=
  map (fun p => round64 (fmul (fl prize_pool) (fl p)) 2) split.

(** Lines 233-235. *)
Definition allocate (results : list Ranked) (prize_pool : Q) (split : list Q)
  : option (list Result) :=
  assign_prizes (prize_table prize_pool split) results.

End F64.

(** ** The session and its statements (lines 26-37) *)

Inductive Stmt : Type :=
| BEGIN
| COMMIT
| ROLLBACK
| INSERT_INTO_RACES (r : Races.row)
| INSERT_INTO_RACE_RESULTS (r : RaceResults.row)
| UPDATE_TEAMS_SET_BUDGET (delta : Q) (team_id : Z).

(** [UPDATE TEAMS SET BUDGET = BUDGET + %s WHERE TEAM_ID = %s] on one row. *)
Definition add_budget (delta : Q) (team_id : Z) (t : Teams.row) : Teams.row :=
  if (Teams.TEAM_ID t =? team_id)%Z
  then Teams.mk (Teams.TEAM_ID t) (Teams.TEAM_NAME t) (Teams.MEMBERS t)
         (Teams.BUDGET t + delta)
  else t.

Definition apply_write (s : Stmt) (db : Store) : Store :=
  match s with
  | INSERT_INTO_RACES r =>
      mkStore (TEAMS db) (CARS db) (RACES db ++ [r]) (RACE_RESULTS db)
  | INSERT_INTO_RACE_RESULTS r =>
      mkStore (TEAMS db) (CARS db) (RACES db) (RACE_RESULTS db ++ [r])
  | UPDATE_TEAMS_SET_BUDGET delta team_id =>
      mkStore (map (add_budget delta team_id) (TEAMS db)) (CARS db)
        (RACES db) (RACE_RESULTS db)
  | _ => db
  end.

(** The cached connection: what is committed, the working copy of an open
    transaction, and how many statements [run] has issued. *)
Record Conn : Type := mkConn {
  committed : Store;
  txn : option Store;
  issued : nat
}.

Definition idle (db : Store) : Conn := mkConn db None 0.

(** What the session itself reads. *)
Definition visible (c : Conn) : Store :=
  match txn c with Some w => w | None => committed c end.

(** A statement that executes: outside a transaction a write commits at
    once; BEGIN inside a transaction and COMMIT outside one do nothing. *)
Definition exec (s : Stmt) (c : Conn) : Conn :=
  match s, txn c with
  | BEGIN, None => mkConn (committed c) (Some (committed c)) (issued c)
  | BEGIN, Some _ => c
  | COMMIT, Some w => mkConn w None (issued c)
  | COMMIT, None => c
  | ROLLBACK, _ => mkConn (committed c) None (issued c)
  | _, Some w => mkConn (committed c) (Some (apply_write s w)) (issued c)
  | _, None => mkConn (apply_write s (committed c)) None (issued c)
  end.

Inductive Exception : Type :=
| DatabaseError (statement : nat)
| IndexError.

(** Code that may raise and that threads the session. *)
Definition M (A : Type) : Type := Conn -> (Exception + A) * Conn.

Definition ret {A : Type} (a : A) : M A := fun c => (inr a, c).

Definition bind {A B : Type} (m : M A) (k : A -> M B) : M B :=
  fun c =>
    match m c with
    | (inl e, c') => (inl e, c')
    | (inr a, c') => k a c'
    end.

Notation "m ;; k" := (bind m (fun _ => k))
  (at level 61, right associativity).

(** [for x in l: body(x)] *)
Fixpoint for_each {A : Type} (l : list A) (body : A -> M unit) : M unit :=
  match l with
  | [] => ret tt
  | x :: l' => body x ;; for_each l' body
  end.

(** [run(sql, params)]: the statement whose number the oracle marks raises
    and leaves the session as it was. *)
Definition run (faults : nat -> bool) (s : Stmt) : M unit :=
  fun c =>
    let n := issued c in
    if faults n
    then (inl (DatabaseError n), mkConn (committed c) (txn c) (S n))
    else (inr tt, mkConn (committed (exec s c)) (txn (exec s c)) (S n)).

(** ** Settlement (lines 237-263) *)

Definition result_row (race_uid : string) (r : Result) : RaceResults.row :=
  let f := finisher (ranked r) in
  RaceResults.mk race_uid (CAR_ID f) (TEAM_ID f) (FINISH_TIME_MIN f)
    (AVG_SPEED_KMH f) (POSITION (ranked r)) (PRIZE_USD r).

Definition team_of (r : Result) : Z := TEAM_ID (finisher (ranked r)).

Definition in_team (t : Z) (r : Result) : bool := (team_of r =? t)%Z.

(** The keys of [groupby("TEAM_ID")]: each once, ascending. *)
Fixpoint insert_key (k : Z) (l : list Z) : list Z :=
  match l with
  | [] => [k]
  | x :: l' =>
      if (k <? x)%Z then k :: l
      else if (k =? x)%Z then l
      else x :: insert_key k l'
  end.

Definition group_keys (l : list Z) : list Z := fold_right insert_key [] l.

Module Fees.
Record row : Type := mk { TEAM_ID : Z; entries : Z; fee_total : Q }.
End Fees.

Module Merged.
Record row : Type := mk {
  TEAM_ID : Z;
  entries : Z;
  fee_total : Q;
  PRIZE_USD : option Q
}.
End Merged.

(** Lines 251-252. *)
Definition fees_frame (fee : Q) (results : list Result) : list Fees.row :=
  map (fun t =>
         let entries := Z.of_nat (List.length (filter (in_team t) results)) in
         Fees.mk t entries (inject_Z entries * fee))
      (group_keys (map team_of results)).

(** Line 253. *)
Definition prizes_team_frame (results : list Result) : list (Z * Q) :=
  map (fun t => (t, Qsum (map PRIZE_USD (filter (in_team t) results))))
      (group_keys (map team_of results)).

(** [pd.merge(fees, prizes_team, on="TEAM_ID", how="left")]: every row of
    the left frame, once per match on the right, and once with a missing
    prize when nothing matches. *)
Definition merge_left (fees : list Fees.row) (prizes_team : list (Z * Q))
  : list Merged.row :=
  flat_map
    (fun f =>
       match filter (fun p => (fst p =? Fees.TEAM_ID f)%Z) prizes_team with
       | [] => [Merged.mk (Fees.TEAM_ID f) (Fees.entries f)
                  (Fees.fee_total f) None]
       | ps => map (fun p => Merged.mk (Fees.TEAM_ID f) (Fees.entries f)
                               (Fees.fee_total f) (Some (snd p))) ps
       end)
    fees.

(** [.fillna({"PRIZE_USD": 0.0})] *)
Definition fillna (m : Merged.row) : Merged.row :=
  match Merged.PRIZE_USD m with
  | Some _ => m
  | None => Merged.mk (Merged.TEAM_ID m) (Merged.entries m)
              (Merged.fee_total m) (Some 0.0)
  end.

Definition merged_frame (fee : Q) (results : list Result) : list Merged.row :=
  map fillna (merge_left (fees_frame fee results) (prizes_team_frame results)).

Definition prize_usd (m : Merged.row) : Q :=
  match Merged.PRIZE_USD m with Some x => x | None => 0 end.

(** Line 257. *)
Definition delta (m : Merged.row) : Q := prize_usd m - Merged.fee_total m.

(** [int(row["TEAM_ID"])] at line 258: a row of [merged.iterrows()] is a
    float64 Series (TEAM_ID and entries are integers, fee_total and
    PRIZE_USD doubles), so the id has passed through a double. *)
Definition row_team_id (m : Merged.row) : Z :=
  py_int (fl (inject_Z (Merged.TEAM_ID m))).

(** An integer that a double holds exactly, whatever its low bits. *)
Definition exact_id (i : Z) : Prop := (Z.abs i <= 2 ^ 53)%Z.

(** Every team of the race frame has such an id. *)
Definition exact_ids (cars : list CarsDf.row) : Prop :=
  Forall (fun row => exact_id (CarsDf.TEAM_ID row)) cars.

(** The body of the [try] block. *)
Definition settle (faults : nat -> bool) (race_uid track : string)
    (distance fee prize_pool : Q) (results : list Result) : M unit :=
  run faults BEGIN ;;
  run faults
    (INSERT_INTO_RACES (Races.mk race_uid track distance fee prize_pool)) ;;
  for_each results
    (fun r => run faults (INSERT_INTO_RACE_RESULTS (result_row race_uid r))) ;;
  for_each (merged_frame fee results)
    (fun row =>
       run faults (UPDATE_TEAMS_SET_BUDGET (delta row) (row_team_id row))) ;;
  run faults COMMIT.

(** What the press of the button ends in. *)
Inductive Outcome : Type :=
| NoCarsAssigned
| FailedToPersist (e : Exception)
| RaceCompleted (results : list Result)
| Uncaught (e : Exception).

(** The handler of line 189, up to the message it shows.  The read of line
    190 is taken to succeed; [race_uid] is the token of line 202. *)
Definition start_race (faults : nat -> bool) (track : string)
    (distance fee prize_pool : Q) (race_uid : string) (c : Conn) (g : Rng)
  : Outcome * Conn * Rng :=
  match select_cars_join_teams (visible c) with
  | [] => (NoCarsAssigned, c, g)
  | cars =>
      let (ranking, g') := simulate distance cars g in
      match allocate ranking prize_pool prize_split with
      | None => (Uncaught IndexError, c, g')
      | Some results =>
          match settle faults race_uid track distance fee prize_pool
                  results c with
          | (inr _, c') => (RaceCompleted results, c', g')
          | (inl e, c') =>
              match run faults ROLLBACK c' with
              | (inr _, c'') => (FailedToPersist e, c'', g')
              | (inl e', c'') => (Uncaught e', c'', g')
              end
          end
      end
  end.

(** ** Notions used to state the properties *)

(** Ascending order of the recorded finish times. *)
Definition by_time (x y : Finisher) : Prop :=
  FINISH_TIME_MIN x <= FINISH_TIME_MIN y.

(** An earlier place and a time that is not greater. *)
Definition ahead (a b : Ranked) : Prop :=
  (POSITION a < POSITION b)%Z /\
  FINISH_TIME_MIN (finisher a) <= FINISH_TIME_MIN (finisher b).

(** Recorded with the finish time [t]. *)
Definition has_time (t : Q) (r : Finisher) : bool :=
  Qeq_bool (FINISH_TIME_MIN r) t.

(** The state of the same tape at some cursor. *)
Definition same_tape (g g' : Rng) : Prop := tape g' = tape g.

(** The prize of a position, read from the table of line 233. *)
Definition prize_at (prizes : list Q) (p : Z) : Q :=
  nth (Z.to_nat (p - 1)) prizes 0.0.

(** The statements of the [try] block, in the order it issues them. *)
Definition script (race_uid track : string) (distance fee prize_pool : Q)
    (results : list Result) : list Stmt :=
  BEGIN
  :: INSERT_INTO_RACES (Races.mk race_uid track distance fee prize_pool)
  :: map (fun r => INSERT_INTO_RACE_RESULTS (result_row race_uid r)) results
  ++ map (fun row => UPDATE_TEAMS_SET_BUDGET (delta row) (row_team_id row))
       (merged_frame fee results)
  ++ [COMMIT].

(** A statement that executes, counted. *)
Definition step (c : Conn) (s : Stmt) : Conn :=
  mkConn (committed (exec s c)) (txn (exec s c)) (S (issued c)).

(** A statement that raises, counted. *)
Definition skip (c : Conn) : Conn :=
  mkConn (committed c) (txn c) (S (issued c)).

(** The statements between BEGIN and COMMIT. *)
Definition is_write (s : Stmt) : bool :=
  match s with
  | BEGIN | COMMIT | ROLLBACK => false
  | _ => true
  end.

Definition writes (race_uid track : string) (distance fee prize_pool : Q)
    (results : list Result) : list Stmt :=
  INSERT_INTO_RACES (Races.mk race_uid track distance fee prize_pool)
  :: map (fun r => INSERT_INTO_RACE_RESULTS (result_row race_uid r)) results
  ++ map (fun row => UPDATE_TEAMS_SET_BUDGET (delta row) (row_team_id row))
       (merged_frame fee results).

(** The TEAMS table after the updates of line 258. *)
Definition apply_deltas (ms : list Merged.row) (teams : list Teams.row)
  : list Teams.row :=
  fold_left (fun ts m => map (add_budget (delta m) (row_team_id m)) ts)
    ms teams.

(** The entries and the prizes of one team, as lines 251-253 total them. *)
Definition entries_of (t : Z) (results : list Result) : Z :=
  Z.of_nat (List.length (filter (in_team t) results)).

Definition prize_total (t : Z) (results : list Result) : Q :=
  Qsum (map PRIZE_USD (filter (in_team t) results)).

(** The row of the merged frame for team [t]. *)
Definition merged_row (fee : Q) (results : list Result) (t : Z) : Merged.row :=
  Merged.mk t (entries_of t results) (inject_Z (entries_of t results) * fee)
    (Some (prize_total t results)).

(** The columns of a team row that settlement never writes. *)
Definition same_team (old new : Teams.row) : Prop :=
  Teams.TEAM_ID new = Teams.TEAM_ID old /\
  Teams.TEAM_NAME new = Teams.TEAM_NAME old /\
  Teams.MEMBERS new = Teams.MEMBERS old.

(** One row of TEAMS under the updates of line 258. *)
Definition update_row (ms : list Merged.row) (t : Teams.row) : Teams.row :=
  fold_left (fun t m => add_budget (delta m) (row_team_id m) t) ms t.

(** ** A store to run the handler on *)

Definition demo_teams : list Teams.row :=
  [Teams.mk 1 "Red" "Alice,Bob" 10000;
   Teams.mk 2 "Blue" "Carol" 10000;
   Teams.mk 3 "Green" "Dave" 10000;
   Teams.mk 4 "Idle" "" 500].

Definition demo_car (i : Z) (top : Q) (team : option Z) : Cars.row :=
  Cars.mk i "Lightning X" top 3.6 0.92 88 1200 team.

Definition demo_db : Store :=
  mkStore demo_teams
    [demo_car 1 280 (Some 1%Z); demo_car 2 250 (Some 2%Z);
     demo_car 3 300 (Some 3%Z); demo_car 4 320 None]
    [] [].

Definition demo_rng : Rng := mkRng (fun _ => 0) 0.

Definition no_faults : nat -> bool := fun _ => false.

(** The run went as far as the store: it completed, or a statement
    raised. *)
Definition attempted (o : Outcome) : Prop :=
  (exists results, o = RaceCompleted results) \/
  (exists n, o = FailedToPersist (DatabaseError n)) \/
  (exists n, o = Uncaught (DatabaseError n)).

(** ** Notions used to state the further properties *)

(** Who a result, and who a row of the race frame, stands for. *)
Definition entrant (r : Finisher) : Z * string * Z * string :=
  (CAR_ID r, CAR_NAME r, TEAM_ID r, TEAM_NAME r).

Definition frame_entrant (row : CarsDf.row) : Z * string * Z * string :=
  (CarsDf.CAR_ID row, CarsDf.CAR_NAME row, CarsDf.TEAM_ID row,
   CarsDf.TEAM_NAME row).

(** The primary key of RACE_RESULTS (line 82). *)
Definition pk (r : RaceResults.row) : string * Z :=
  (RaceResults.RACE_UID r, RaceResults.CAR_ID r).

(** The sum of the deltas that the updates of line 258 address to team
    [t], by the id each update carries. *)
Definition delta_for (ms : list Merged.row) (t : Z) : Q :=
  Qsum (map delta (filter (fun m => (row_team_id m =? t)%Z) ms)).

(** A store that differs from [db] at most by balances and by rows added
    at the end of RACES and RACE_RESULTS. *)
Definition keeps (db s : Store) : Prop :=
  CARS s = CARS db /\
  Forall2 same_team (TEAMS db) (TEAMS s) /\
  (exists new, RACES s = RACES db ++ new) /\
  (exists new, RACE_RESULTS s = RACE_RESULTS db ++ new).

(** Both what is committed and what the session reads. *)
Definition session_keeps (db : Store) (c : Conn) : Prop :=
  keeps db (committed c) /\ keeps db (visible c).

(** ** The frames of the other tabs (lines 89-102) *)

(** [ORDER BY TEAM_NAME]: names compare byte by byte; rows of equal name
    stay in table order. *)
Fixpoint insert_by_name (t : Teams.row) (l : list Teams.row)
  : list Teams.row :=
  match l with
  | [] => [t]
  | x :: l' =>
      if String.ltb (Teams.TEAM_NAME x) (Teams.TEAM_NAME t)
      then x :: insert_by_name t l'
      else t :: l
  end.

Definition get_teams_df (db : Store) : list Teams.row :=
  fold_right insert_by_name [] (TEAMS db).

(** A row of [get_cars_df]: the car's own TEAM_ID and, when a team row
    matches it, that team's name. *)
Module CarsView.
Record row : Type := mk {
  CAR_ID : Z;
  CAR_NAME : string;
  TOP_SPEED_KMH : Q;
  ACCEL_0_100_S : Q;
  RELIABILITY : Q;
  HANDLING : Q;
  WEIGHT_KG : Q;
  TEAM_ID : option Z;
  TEAM_NAME : option string
}.
End CarsView.

Definition view_row (c : Cars.row) (t : option Teams.row) : CarsView.row :=
  CarsView.mk (Cars.CAR_ID c) (Cars.CAR_NAME c) (Cars.TOP_SPEED_KMH c)
    (Cars.ACCEL_0_100_S c) (Cars.RELIABILITY c) (Cars.HANDLING c)
    (Cars.WEIGHT_KG c) (Cars.TEAM_ID c) (option_map Teams.TEAM_NAME t).

(** [CARS C LEFT JOIN TEAMS T], or [JOIN] once line 101 has replaced the
    keyword: a car that matches no team gives one row without team name
    under the left join and none under the inner join. *)
Definition join_cars_teams (include_unassigned : bool) (db : Store)
  : list CarsView.row :=
  flat_map
    (fun c =>
       match filter (team_matches c) (TEAMS db) with
       | [] => if include_unassigned then [view_row c None] else []
       | ts => map (fun t => view_row c (Some t)) ts
       end)
    (CARS db).

(** [ORDER BY C.CAR_ID DESC] *)
Fixpoint insert_by_car_id_desc (r : CarsView.row) (l : list CarsView.row)
  : list CarsView.row :=
  match l with
  | [] => [r]
  | x :: l' =>
      if (CarsView.CAR_ID r <? CarsView.CAR_ID x)%Z
      then x :: insert_by_car_id_desc r l'
      else r :: l
  end.

Definition get_cars_df (include_unassigned : bool) (db : Store)
  : list CarsView.row :=
  fold_right insert_by_car_id_desc [] (join_cars_teams include_unassigned db).

(** ** The Assign tab (lines 159-177) *)

(** A Python dict as its items in insertion order: setting a key that is
    present replaces its value in place. *)
Fixpoint dict_set {V : Type} (k : string) (v : V) (d : list (string * V))
  : list (string * V) :=
  match d with
  | [] => [(k, v)]
  | (k', v') :: d' =>
      if String.eqb k' k then (k', v) :: d' else (k', v') :: dict_set k v d'
  end.

(** [{key: value for ... in items}] *)
Definition dict_of {V : Type} (items : list (string * V))
  : list (string * V) :=
  fold_left (fun d kv => dict_set (fst kv) (snd kv) d) items [].

(** [d[k]], [None] standing for KeyError. *)
Fixpoint dict_get {V : Type} (d : list (string * V)) (k : string)
  : option V :=
  match d with
  | [] => None
  | (k', v) :: d' => if String.eqb k' k then Some v else dict_get d' k
  end.

(** [str(i)] for an integer. *)
Definition str (i : Z) : string := NilZero.string_of_int (Z.to_int i).

(** The label of line 167. *)
Definition car_label (car_id : Z) (car_name : string) : string :=
  ("[#" ++ str car_id ++ "] " ++ car_name)%string.

Definition car_map (db : Store) : list (string * Z) :=
  dict_of
    (map (fun row => (car_label (CarsView.CAR_ID row) (CarsView.CAR_NAME row),
                      CarsView.CAR_ID row))
       (get_cars_df true db)).

Definition team_map (db : Store) : list (string * Z) :=
  dict_of
    (map (fun t => (Teams.TEAM_NAME t, Teams.TEAM_ID t)) (get_teams_df db)).

(** [UPDATE CARS SET TEAM_ID = %s WHERE CAR_ID = %s] on one row, and on
    the table. *)
Definition set_team (team_id car_id : Z) (c : Cars.row) : Cars.row :=
  if (Cars.CAR_ID c =? car_id)%Z
  then Cars.mk (Cars.CAR_ID c) (Cars.CAR_NAME c) (Cars.TOP_SPEED_KMH c)
         (Cars.ACCEL_0_100_S c) (Cars.RELIABILITY c) (Cars.HANDLING c)
         (Cars.WEIGHT_KG c) (Some team_id)
  else c.

Definition update_cars (team_id car_id : Z) (db : Store) : Store :=
  mkStore (TEAMS db) (map (set_team team_id car_id) (CARS db)) (RACES db)
    (RACE_RESULTS db).

Inductive AssignError : Type :=
| StatementFailed (statement : nat)
| KeyError (key : string).

(** [run] on the update of line 173: outside a transaction it commits at
    once. *)
Definition run_update_cars (faults : nat -> bool) (team_id car_id : Z)
    (c : Conn) : (AssignError + unit) * Conn :=
  let n := issued c in
  if faults n
  then (inl (StatementFailed n), mkConn (committed c) (txn c) (S n))
  else (inr tt,
        match txn c with
        | Some w =>
            mkConn (committed c) (Some (update_cars team_id car_id w)) (S n)
        | None => mkConn (update_cars team_id car_id (committed c)) None (S n)
        end).

Inductive AssignOutcome : Type :=
| AddCarAndTeamFirst
| AssignmentUpdated
| FailedToAssign (e : AssignError).

(** The tab with its button pressed; [sel_car] and [sel_team] are what
    the two select boxes hold.  The two reads are taken to succeed. *)
Definition assign_tab (faults : nat -> bool) (sel_car sel_team : string)
    (c : Conn) : AssignOutcome * Conn :=
  match get_cars_df true (visible c), get_teams_df (visible c) with
  | [], _ | _, [] => (AddCarAndTeamFirst, c)
  | _, _ =>
      match dict_get (team_map (visible c)) sel_team with
      | None => (FailedToAssign (KeyError sel_team), c)
      | Some team_id =>
          match dict_get (car_map (visible c)) sel_car with
          | None => (FailedToAssign (KeyError sel_car), c)
          | Some car_id =>
              match run_update_cars faults team_id car_id c with
              | (inr _, c') => (AssignmentUpdated, c')
              | (inl e, c') => (FailedToAssign e, c')
              end
          end
      end
  end.

(** ** The results of a race in the History tab (lines 283-293) *)

Module History.
Record row : Type := mk {
  POSITION : Z;
  TEAM_NAME : string;
  CAR_NAME : string;
  AVG_SPEED_KMH : Q;
  FINISH_TIME_MIN : Q;
  PRIZE_USD : Q
}.
End History.

(** [ORDER BY RR.POSITION] *)
Fixpoint insert_by_position (r : History.row) (l : list History.row)
  : list History.row :=
  match l with
  | [] => [r]
  | x :: l' =>
      if (History.POSITION x <? History.POSITION r)%Z
      then x :: insert_by_position r l'
      else r :: l
  end.

Definition history_row (rr : RaceResults.row) (c : Cars.row)
    (t : Teams.row) : History.row :=
  History.mk (RaceResults.POSITION rr) (Teams.TEAM_NAME t) (Cars.CAR_NAME c)
    (RaceResults.AVG_SPEED_KMH rr) (RaceResults.FINISH_TIME_MIN rr)
    (RaceResults.PRIZE_USD rr).

(** The rows of RACE_RESULTS of race [sel], each joined to the cars of
    its CAR_ID and to the teams of its TEAM_ID. *)
Definition join_race_results (db : Store) (sel : string)
  : list History.row :=
  flat_map
    (fun rr =>
       if String.eqb (RaceResults.RACE_UID rr) sel
       then flat_map
              (fun c =>
                 if (Cars.CAR_ID c =? RaceResults.CAR_ID rr)%Z
                 then flat_map
                        (fun t =>
                           if (Teams.TEAM_ID t =? RaceResults.TEAM_ID rr)%Z
                           then [history_row rr c t]
                           else [])
                        (TEAMS db)
                 else [])
              (CARS db)
       else [])
    (RACE_RESULTS db).

Definition select_race_results (db : Store) (sel : string)
  : list History.row :=
  fold_right insert_by_position [] (join_race_results db sel).


(** ** Notions used to state the properties of the other tabs *)

(** The character [a] does not occur in [s]. *)
Fixpoint free_of (a : Ascii.ascii) (s : string) : Prop :=
  match s with
  | EmptyString => True
  | String b s' => b <> a /\ free_of a s'
  end.

(** What the History tab shows for a result. *)
Definition shown (r : Result) : History.row :=
  let f := finisher (ranked r) in
  History.mk (POSITION (ranked r)) (TEAM_NAME f) (CAR_NAME f)
    (AVG_SPEED_KMH f) (FINISH_TIME_MIN f) (PRIZE_USD r).

(** The columns [get_cars_df] shows of a car and its team, and the same
    columns of a row of the race frame. *)
Definition view_key (r : CarsView.row)
  : Z * string * option Z * option string :=
  (CarsView.CAR_ID r, CarsView.CAR_NAME r, CarsView.TEAM_ID r,
   CarsView.TEAM_NAME r).

Definition frame_key (row : CarsDf.row)
  : Z * string * option Z * option string :=
  (CarsDf.CAR_ID row, CarsDf.CAR_NAME row, Some (CarsDf.TEAM_ID row),
   Some (CarsDf.TEAM_NAME row)).

(** No team row matches the car's TEAM_ID. *)
Definition teamless (db : Store) (c : Cars.row) : Prop :=
  forall t, In t (TEAMS db) -> Cars.TEAM_ID c <> Some (Teams.TEAM_ID t).

(** ** Notions used to state what is recorded *)

(** [n] is the integer nearest to [y], the even one when two are equally
    near. *)
Definition nearest_even (n : Z) (y : Q) : Prop :=
  Qabs (inject_Z n - y) <= 1 # 2 /\
  (Qabs (inject_Z n - y) == 1 # 2 -> Z.even n = true).

(** [d] is the double [x] rounded to [ndigits] decimal places: the double
    nearest to the multiple of [10^-ndigits] nearest to [x]. *)
Definition rounded_to (ndigits : nat) (x d : Q) : Prop :=
  exists n : Z,
    nearest_even n (x * inject_Z (10 ^ Z.of_nat ndigits)) /\
    d = fl (inject_Z n / inject_Z (10 ^ Z.of_nat ndigits)).

(** What line 220 records for a car in binary64: its effective speed,
    drawn at some cursor of the tape, rounded to 2 places, and the time of
    line 219 rounded to 3. *)
Definition records64 (distance : Q) (g : Rng) (row : CarsDf.row)
    (r : Finisher) : Prop :=
  exists g0, same_tape g g0 /\
    let speed := fst (F64.effective_speed (fl (CarsDf.TOP_SPEED_KMH row))
                        (fl (CarsDf.ACCEL_0_100_S row))
                        (fl (CarsDf.RELIABILITY row))
                        (fl (CarsDf.HANDLING row)) g0) in
    rounded_to 2 speed (AVG_SPEED_KMH r) /\
    rounded_to 3 (F64.time_min distance speed) (FINISH_TIME_MIN r).

(** Two cars that differ by 0.01 km/h of top speed, the faster one
    entered second. *)
Definition lightning_x : CarsDf.row :=
  CarsDf.mk 1 "Lightning X" 280 3.6 0.92 88 1200 1 "Red".

Definition lightning_y : CarsDf.row :=
  CarsDf.mk 2 "Lightning Y" 280.01 3.6 0.92 88 1200 2 "Blue".

Definition twin_cars : list CarsDf.row := [lightning_x; lightning_y].

(** The time of line 219 for a car whose draws start at cursor [n] of the
    demo tape. *)
Definition computed_time (distance : Q) (row : CarsDf.row) (n : nat) : Q :=
  F64.time_min distance
    (fst (F64.effective_speed (fl (CarsDf.TOP_SPEED_KMH row))
            (fl (CarsDf.ACCEL_0_100_S row)) (fl (CarsDf.RELIABILITY row))
            (fl (CarsDf.HANDLING row)) (mkRng (tape demo_rng) n))).

(** A car that the floor of line 218 holds at 60 km/h. *)
Definition slow_car : CarsDf.row :=
  CarsDf.mk 3 "Tortoise" 100 10 0.92 0 1200 3 "Green".

(** ** Notions used to state the settlement properties *)

(** The entries of team [t] in the race frame of line 190. *)
Definition frame_entries (t : Z) (cars : list CarsDf.row) : Z :=
  Z.of_nat
    (List.length (filter (fun row => (CarsDf.TEAM_ID row =? t)%Z) cars)).

(** What a race owes team [t]: its prizes less the fee for each of its
    entries. *)
Definition owed (fee : Q) (cars : list CarsDf.row) (results : list Result)
    (t : Z) : Q :=
  prize_total t results - inject_Z (frame_entries t cars) * fee.


(** A store whose racing team has the id 2^53 + 1, next to a team with
    the id 2^53 that has no car. *)
Definition wide_db : Store :=
  mkStore
    [Teams.mk 9007199254740993 "Red" "Alice,Bob" 10000;
     Teams.mk 9007199254740992 "Blue" "Carol" 10000]
    [demo_car 1 280 (Some 9007199254740993%Z)]
    [] [].

(** The statements numbered 6 and 7 raise: on [demo_db] the second balance
    update and the ROLLBACK that follows it. *)
Definition update_and_rollback_fail : nat -> bool :=
  fun n => (n =? 6)%nat || (n =? 7)%nat.

(** The demo store after an earlier race of cars 3 and 1. *)
Definition raced_db : Store :=
  mkStore demo_teams (CARS demo_db)
    [Races.mk "race-0" "Riga Street Circuit" 100 1000 10000]
    [RaceResults.mk "race-0" 3 3 27.805 215.78 1 6000;
     RaceResults.mk "race-0" 1 1 29.792 201.39 2 3000].

(** * Properties *)

(** ** Comparisons, [max], [min] and [round] *)

Lemma Qlt_bool_true (x y : Q) : Qlt_bool x y = true <-> x < y.
Proof.
  unfold Qlt_bool. rewrite negb_true_iff.
  destruct (Qle_bool y x) eqn:E.
  - apply Qle_bool_iff in E. split; [discriminate | intros H; lra].
  - split; [intros _ | reflexivity].
    apply Qnot_le_lt. intros H. apply Qle_bool_iff in H. congruence.
Qed.

Lemma Qlt_bool_false (x y : Q) : Qlt_bool x y = false <-> y <= x.
Proof.
  destruct (Qlt_bool x y) eqn:E.
  - apply Qlt_bool_true in E. split; [discriminate | intros H; lra].
  - split; [intros _ | reflexivity].
    apply Qnot_lt_le. intros H. apply Qlt_bool_true in H. congruence.
Qed.

Ltac case_Qlt x y :=
  let E := fresh "E" in
  destruct (Qlt_bool x y) eqn:E;
  [apply Qlt_bool_true in E | apply Qlt_bool_false in E].

Lemma py_max_lower (a b : Q) : a <= py_max a b.
Proof. unfold py_max. case_Qlt a b; lra. Qed.

Lemma py_max_upper (a b c : Q) : a <= c -> b <= c -> py_max a b <= c.
Proof. unfold py_max. case_Qlt a b; lra. Qed.

Lemma py_min_upper (a b : Q) : py_min a b <= b.
Proof. unfold py_min. case_Qlt b a; lra. Qed.

Lemma round_half_even_near (y : Q) :
  y - (1 # 2) <= inject_Z (round_half_even y) <= y + (1 # 2).
Proof.
  unfold round_half_even.
  pose proof (Qfloor_le y) as Hlo. pose proof (Qlt_floor y) as Hhi.
  rewrite inject_Z_plus in Hhi.
  change (inject_Z 1) with 1 in Hhi.
  case_Qlt (y - inject_Z (Qfloor y)) (1 # 2).
  - lra.
  - case_Qlt (1 # 2) (y - inject_Z (Qfloor y)).
    + rewrite inject_Z_plus. change (inject_Z 1) with 1. lra.
    + destruct (Z.even (Qfloor y)).
      * lra.
      * rewrite inject_Z_plus. change (inject_Z 1) with 1. lra.
Qed.

Lemma round_half_even_nonneg (y : Q) : 0 <= y -> (0 <= round_half_even y)%Z.
Proof.
  intros Hy.
  assert (H0 : (0 <= Qfloor y)%Z).
  { change 0%Z with (Qfloor 0). now apply Qfloor_resp_le. }
  unfold round_half_even.
  destruct (Qlt_bool _ _); [lia |].
  destruct (Qlt_bool _ _); [lia |].
  destruct (Z.even _); lia.
Qed.

Lemma scale_pos (n : nat) : 0 < inject_Z (10 ^ Z.of_nat n).
Proof.
  change 0 with (inject_Z 0). rewrite <- Zlt_Qlt.
  apply Z.pow_pos_nonneg; lia.
Qed.

Lemma round_nonneg (x : Q) (n : nat) : 0 <= x -> 0 <= round x n.
Proof.
  intros Hx. unfold round. cbv zeta.
  pose proof (scale_pos n) as Hs.
  apply Qle_shift_div_l; [exact Hs |].
  rewrite Qmult_0_l. change 0 with (inject_Z 0). rewrite <- Zle_Qle.
  apply round_half_even_nonneg. nra.
Qed.


Lemma Qsum_from (l : list Q) (a : Q) : fold_left Qplus l a == a + Qsum l.
Proof.
  unfold Qsum. revert a. induction l as [| x l IH]; intros a; simpl.
  - lra.
  - rewrite (IH (a + x)), (IH (0 + x)). lra.
Qed.

Lemma Qsum_cons (x : Q) (l : list Q) : Qsum (x :: l) == x + Qsum l.
Proof. unfold Qsum at 1. simpl. rewrite Qsum_from. lra. Qed.

(** ** Integers as doubles *)

Lemma round_half_even_Z (y : Q) (m : Z) :
  y == inject_Z m -> round_half_even y = m.
Proof.
  intros Hy. pose proof (round_half_even_near y) as [Hlo Hhi].
  assert (H1 : inject_Z m - 1 < inject_Z (round_half_even y)) by lra.
  assert (H2 : inject_Z (round_half_even y) < inject_Z m + 1) by lra.
  change 1 with (inject_Z 1) in H1, H2.
  unfold Qminus in H1. rewrite <- inject_Z_opp, <- inject_Z_plus in H1.
  rewrite <- inject_Z_plus in H2.
  rewrite <- Zlt_Qlt in H1, H2. lia.
Qed.

Lemma two_power (k : Z) : (0 <= k)%Z -> 2 ^ k == inject_Z (2 ^ k).
Proof. intros Hk. now rewrite Zpower_Qpower. Qed.

Lemma binade_Z (n : Z) : (0 < n)%Z -> binade (inject_Z n) = Z.log2 n.
Proof.
  intros Hn. unfold binade. cbn [Qnum Qden inject_Z].
  change (Z.log2 1) with 0%Z. rewrite Z.sub_0_r.
  assert (H : Qle_bool (2 ^ Z.log2 n) (inject_Z n) = true).
  { apply Qle_bool_iff. rewrite two_power by apply Z.log2_nonneg.
    rewrite <- Zle_Qle.
    apply Z.log2_spec, Hn. }
  now rewrite H.
Qed.

(** A positive integer below [2^53] is a double. *)
Lemma fl_small_pos (n : Z) :
  (0 < n < 2 ^ 53)%Z -> fl (inject_Z n) == inject_Z n.
Proof.
  intros [Hpos Hlt].
  assert (HL : (0 <= Z.log2 n <= 52)%Z).
  { split; [apply Z.log2_nonneg |].
    assert (Z.log2 n < 53)%Z; [| lia].
    apply Z.log2_lt_pow2; assumption. }
  unfold fl.
  assert (H0 : Qeq_bool (inject_Z n) 0 = false).
  { destruct (Qeq_bool (inject_Z n) 0) eqn:E; [| reflexivity].
    apply Qeq_bool_iff in E. unfold Qeq in E. cbn in E. lia. }
  rewrite H0.
  assert (Ha : Qabs (inject_Z n) = inject_Z n).
  { unfold Qabs, inject_Z. now rewrite Z.abs_eq by lia. }
  rewrite Ha, binade_Z by exact Hpos.
  cbv zeta.
  rewrite Z.max_l by lia.
  set (s := (52 - Z.log2 n)%Z).
  replace (Z.log2 n - 52)%Z with (- s)%Z by (unfold s; lia).
  assert (Hs : (0 <= s)%Z) by (unfold s; lia).
  assert (Hp : 0 < inject_Z (2 ^ s)).
  { change 0 with (inject_Z 0). rewrite <- Zlt_Qlt.
    apply Z.pow_pos_nonneg; lia. }
  assert (Hpow : 2 ^ (- s) == / inject_Z (2 ^ s)).
  { now rewrite Qpower_opp, two_power. }
  assert (Hq : inject_Z n / 2 ^ (- s) == inject_Z (n * 2 ^ s)).
  { rewrite Hpow, inject_Z_mult. field. lra. }
  assert (Hneg : Qlt_bool (inject_Z n) 0 = false).
  { apply Qlt_bool_false. change 0 with (inject_Z 0). rewrite <- Zle_Qle. lia. }
  rewrite Hneg, (round_half_even_Z _ _ Hq), Hpow, inject_Z_mult.
  field. lra.
Qed.

Lemma fl_nonneg_Z (n : Z) :
  (0 <= n <= 2 ^ 53)%Z -> fl (inject_Z n) == inject_Z n.
Proof.
  intros [H0 H1].
  destruct (Z.eq_dec n 0) as [-> | Hn0]; [reflexivity |].
  destruct (Z.eq_dec n (2 ^ 53)) as [-> | Hn1]; [vm_compute; reflexivity |].
  apply fl_small_pos. lia.
Qed.

Lemma fl_opp (x : Q) : fl (- x) == - fl x.
Proof.
  unfold fl.
  destruct (Qeq_bool x 0) eqn:E0.
  - apply Qeq_bool_iff in E0.
    assert (E : Qeq_bool (- x) 0 = true) by (apply Qeq_bool_iff; lra).
    rewrite E. reflexivity.
  - assert (E : Qeq_bool (- x) 0 = false).
    { destruct (Qeq_bool (- x) 0) eqn:E; [| reflexivity].
      apply Qeq_bool_iff in E.
      assert (E' : Qeq_bool x 0 = true) by (apply Qeq_bool_iff; lra).
      congruence. }
    rewrite E. cbv zeta.
    assert (Hne : ~ x == 0).
    { intros H. apply Qeq_bool_iff in H. congruence. }
    assert (Habs : Qabs (- x) = Qabs x).
    { destruct x as [[| p | p] d]; reflexivity. }
    rewrite Habs.
    case_Qlt x 0; case_Qlt (- x) 0; try lra.
Qed.

Lemma py_int_Z (x : Q) (i : Z) : x == inject_Z i -> py_int x = i.
Proof.
  intros H. unfold py_int.
  destruct (Qlt_bool x 0).
  - unfold Qceiling. rewrite (Qfloor_comp _ (inject_Z (- i))).
    + rewrite Qfloor_Z. lia.
    + rewrite H, inject_Z_opp. reflexivity.
  - rewrite (Qfloor_comp _ _ H). apply Qfloor_Z.
Qed.

Lemma fl_Z (i : Z) : exact_id i -> fl (inject_Z i) == inject_Z i.
Proof.
  unfold exact_id. intros H.
  destruct (Z_le_gt_dec 0 i) as [Hi | Hi].
  - apply fl_nonneg_Z. lia.
  - replace i with (- (- i))%Z by lia.
    rewrite inject_Z_opp, fl_opp, fl_nonneg_Z by lia. reflexivity.
Qed.

Lemma int_of_double_id (i : Z) :
  exact_id i -> py_int (fl (inject_Z i)) = i.
Proof. intros H. apply py_int_Z, fl_Z, H. Qed.

(** ** The performance model *)

Lemma effective_speed_floor (top accel rel hand : Q) (g : Rng) :
  60 <= fst (effective_speed top accel rel hand g).
Proof.
  unfold effective_speed, np_random_normal, np_random_rand,
    np_random_uniform, draw.
  destruct (Qlt_bool rel _); simpl;
    (eapply Qle_trans; [| apply py_max_lower]); lra.
Qed.

Lemma effective_speed_cursor (top accel rel hand : Q) (g : Rng) :
  let g' := snd (effective_speed top accel rel hand g) in
  tape g' = tape g /\
  (cursor g' = cursor g + 2 \/ cursor g' = cursor g + 3)%nat.
Proof.
  unfold effective_speed, np_random_normal, np_random_rand,
    np_random_uniform, draw.
  destruct (Qlt_bool rel _); simpl; split; auto; lia.
Qed.

(** C3, as amended: a vehicle whose top speed is at least 60 gets, for
    every tape of random draws and every reliability (so also when the
    breakdown branch is always taken), an effective speed in the closed
    interval from 60 to its top speed. *)
Theorem effective_speed_in_range (top accel rel hand : Q) (g : Rng) :
  60 <= top ->
  60 <= fst (effective_speed top accel rel hand g) <= top.
Proof.
  intros Htop. split; [apply effective_speed_floor |].
  unfold effective_speed, np_random_normal, np_random_rand,
    np_random_uniform, draw.
  destruct (Qlt_bool rel _); simpl;
    (apply py_max_upper; [lra | apply py_min_upper]).
Qed.

Lemma effective_speed_in_range_witness :
  60 <= 280 /\
  60 <= fst (effective_speed 280 3.6 0 88 (mkRng (fun _ => 1) 0)) <= 280.
Proof.
  assert (H : 60 <= 280) by (vm_compute; discriminate).
  split; [exact H | exact (effective_speed_in_range 280 3.6 0 88 _ H)].
Defined.

(** C3 as stated fails: a positive top speed below the floor of 60 is
    left below the speed the clamp returns. *)
Lemma effective_speed_above_low_top :
  ~ (forall top accel rel hand g,
        0 < top ->
        60 <= fst (effective_speed top accel rel hand g) <= top).
Proof.
  intros H.
  specialize (H 50 3.6 0.92 88 (mkRng (fun _ => 0) 0)).
  assert (Hpos : 0 < 50) by reflexivity.
  destruct (H Hpos) as [_ Hle]. vm_compute in Hle. apply Hle. reflexivity.
Qed.

(** ** The simulator: one result per entry, ranked by time *)

Lemma run_cars_length (distance : Q) (cars : list CarsDf.row) (g : Rng) :
  List.length (fst (run_cars distance cars g)) = List.length cars.
Proof.
  revert g. induction cars as [| row cars IH]; intros g; simpl.
  - reflexivity.
  - destruct (run_car distance row g) as [r g1].
    specialize (IH g1). destruct (run_cars distance cars g1) as [rs g2].
    simpl in *. now rewrite IH.
Qed.


Lemma run_cars_cursor (distance : Q) (cars : list CarsDf.row) (g : Rng) :
  (cursor g + 2 * List.length cars <= cursor (snd (run_cars distance cars g))
   <= cursor g + 3 * List.length cars)%nat.
Proof.
  revert g. induction cars as [| row cars IH]; intros g; simpl.
  - lia.
  - unfold run_car.
    pose proof (effective_speed_cursor (CarsDf.TOP_SPEED_KMH row)
                  (CarsDf.ACCEL_0_100_S row) (CarsDf.RELIABILITY row)
                  (CarsDf.HANDLING row) g) as [_ Hc].
    destruct (effective_speed _ _ _ _ g) as [speed g1].
    specialize (IH g1). destruct (run_cars distance cars g1) as [rs g2].
    simpl in *. lia.
Qed.

Lemma insert_by_time_perm (r : Finisher) (l : list Finisher) :
  Permutation (r :: l) (insert_by_time r l).
Proof.
  induction l as [| x l IH]; simpl.
  - apply Permutation_refl.
  - destruct (Qlt_bool _ _).
    + eapply perm_trans; [apply perm_swap |]. now apply perm_skip.
    + apply Permutation_refl.
Qed.

Lemma sort_by_time_perm (l : list Finisher) :
  Permutation l (sort_by_time l).
Proof.
  induction l as [| r l IH]; simpl.
  - apply perm_nil.
  - eapply perm_trans; [| apply insert_by_time_perm]. now apply perm_skip.
Qed.

Lemma sort_by_time_length (l : list Finisher) :
  List.length (sort_by_time l) = List.length l.
Proof. symmetry. apply Permutation_length, sort_by_time_perm. Qed.

Lemma insert_by_time_sorted (r : Finisher) (l : list Finisher) :
  StronglySorted by_time l -> StronglySorted by_time (insert_by_time r l).
Proof.
  induction 1 as [| x l Hs IH Hx]; simpl.
  - constructor; constructor.
  - case_Qlt (FINISH_TIME_MIN x) (FINISH_TIME_MIN r).
    + constructor; [exact IH |].
      eapply Permutation_Forall; [apply insert_by_time_perm |].
      constructor; [unfold by_time; lra | exact Hx].
    + constructor; [now constructor |].
      constructor; [exact E |].
      eapply Forall_impl; [| exact Hx].
      unfold by_time. intros y Hy. lra.
Qed.

Lemma sort_by_time_sorted (l : list Finisher) :
  StronglySorted by_time (sort_by_time l).
Proof.
  induction l as [| r l IH]; simpl.
  - constructor.
  - now apply insert_by_time_sorted.
Qed.

Lemma number_length (l : list Finisher) (start : Z) :
  List.length (number l start) = List.length l.
Proof.
  revert start. induction l as [| x l IH]; intros start; simpl.
  - reflexivity.
  - f_equal. apply IH.
Qed.

Lemma number_finishers (l : list Finisher) (start : Z) :
  map finisher (number l start) = l.
Proof.
  revert start. induction l as [| x l IH]; intros start; simpl.
  - reflexivity.
  - f_equal. apply IH.
Qed.

Lemma number_positions (l : list Finisher) (start : Z) :
  map POSITION (number l start) =
  map (fun i => (start + Z.of_nat i)%Z) (seq 0 (List.length l)).
Proof.
  revert start. induction l as [| x l IH]; intros start; simpl.
  - reflexivity.
  - f_equal; [lia |].
    unfold number in IH. rewrite IH, <- seq_shift, map_map.
    apply map_ext. intros i. lia.
Qed.

Lemma number_from (l : list Finisher) (start : Z) :
  Forall (fun r => (start <= POSITION r)%Z) (number l start).
Proof.
  revert start. induction l as [| x l IH]; intros start; simpl.
  - constructor.
  - constructor; [simpl; lia |].
    eapply Forall_impl; [| apply (IH (start + 1)%Z)].
    simpl. intros r Hr. lia.
Qed.

Lemma number_sorted (l : list Finisher) (start : Z) :
  StronglySorted by_time l -> StronglySorted ahead (number l start).
Proof.
  intros Hs. revert start.
  induction Hs as [| x l Hs IH Hx]; intros start; simpl.
  - constructor.
  - constructor; [apply IH |].
    pose proof (number_from l (start + 1)) as Hfrom.
    pose proof (number_finishers l (start + 1)) as Hfin.
    fold (number l (start + 1)).
    rewrite <- Hfin in Hx. rewrite Forall_map in Hx.
    rewrite Forall_forall in *. intros r Hr.
    split; simpl; [specialize (Hfrom r Hr); simpl in Hfrom; lia |].
    apply (Hx r Hr).
Qed.

Lemma sorted_pairs {A : Type} (R : A -> A -> Prop) (l : list A) :
  StronglySorted R l ->
  forall a b, In a l -> In b l -> a = b \/ R a b \/ R b a.
Proof.
  induction 1 as [| x l Hs IH Hx]; intros a b Ha Hb; [destruct Ha |].
  rewrite Forall_forall in Hx.
  destruct Ha as [-> | Ha], Hb as [-> | Hb]; auto.
Qed.

Lemma simulate_ranking (distance : Q) (cars : list CarsDf.row) (g : Rng) :
  fst (simulate distance cars g) =
  number (sort_by_time (fst (run_cars distance cars g))) 1.
Proof.
  unfold simulate. destruct (run_cars distance cars g). reflexivity.
Qed.

(** C4, as amended: the simulator returns one result per entry, the
    positions are 1, 2, ..., N in this order, a result placed ahead of
    another has a finish time that is not greater, and a result with a
    strictly smaller finish time is placed ahead. *)
Theorem simulate_positions_dense_and_ordered
    (distance : Q) (cars : list CarsDf.row) (g : Rng) :
  let results := fst (simulate distance cars g) in
  List.length results = List.length cars /\
  map POSITION results =
    map (fun i => (1 + Z.of_nat i)%Z) (seq 0 (List.length cars)) /\
  (forall a b, In a results -> In b results ->
     (POSITION a < POSITION b)%Z ->
     FINISH_TIME_MIN (finisher a) <= FINISH_TIME_MIN (finisher b)) /\
  (forall a b, In a results -> In b results ->
     FINISH_TIME_MIN (finisher a) < FINISH_TIME_MIN (finisher b) ->
     (POSITION a < POSITION b)%Z).
Proof.
  cbv zeta. rewrite simulate_ranking.
  set (fins := fst (run_cars distance cars g)).
  assert (Hlen : List.length (sort_by_time fins) = List.length cars).
  { rewrite sort_by_time_length. apply run_cars_length. }
  assert (Hs : StronglySorted ahead (number (sort_by_time fins) 1)).
  { apply number_sorted, sort_by_time_sorted. }
  repeat split.
  - now rewrite number_length.
  - now rewrite number_positions, Hlen.
  - intros a b Ha Hb Hlt.
    destruct (sorted_pairs ahead _ Hs a b Ha Hb) as [-> | [[_ H] | [H _]]];
      [lia | exact H | lia].
  - intros a b Ha Hb Hlt.
    destruct (sorted_pairs ahead _ Hs a b Ha Hb) as [-> | [[H _] | [_ H]]];
      [lra | exact H | lra].
Qed.

(** C4 as stated fails: two cars of top speed 100 that both break down
    are clamped to 60 and record the same finish time; the one placed
    second has a time that is not greater than the other's, yet its
    position is not smaller. *)
Lemma tied_times_refute_position_iff_time :
  ~ (forall distance cars g,
        cars <> [] ->
        let results := fst (simulate distance cars g) in
        forall a b, In a results -> In b results -> a <> b ->
          ((POSITION a < POSITION b)%Z <->
           FINISH_TIME_MIN (finisher a) <= FINISH_TIME_MIN (finisher b))).
Proof.
  intros H.
  specialize (H 100
    [CarsDf.mk 1 "Lightning X" 100 3.6 0.92 88 1200 1 "Red";
     CarsDf.mk 2 "Lightning Y" 100 3.6 0.92 88 1200 2 "Blue"]
    (mkRng (fun n => nth n [0.1; 0.95; 0.5; -0.2; 0.95; 0.25] 0) 0)).
  cbv zeta in H.
  remember (fst (simulate _ _ _)) as results eqn:Hres in H.
  vm_compute in Hres. subst results.
  match type of H with
  | _ -> forall a b, In a [?r1; ?r2] -> _ =>
      assert (Hne : r2 <> r1) by discriminate;
      destruct (H ltac:(discriminate) r2 r1
                  (or_intror (or_introl eq_refl)) (or_introl eq_refl) Hne)
        as [_ Hback]
  end.
  assert (Hpos : (2 < 1)%Z) by (apply Hback; vm_compute; discriminate).
  lia.
Qed.

(** ** Stability of the ranking *)

Lemma insert_by_time_filter (t : Q) (r : Finisher) (l : list Finisher) :
  filter (has_time t) (insert_by_time r l) = filter (has_time t) (r :: l).
Proof.
  induction l as [| x l IH]; [reflexivity |].
  simpl insert_by_time.
  case_Qlt (FINISH_TIME_MIN x) (FINISH_TIME_MIN r); [| reflexivity].
  simpl in *. rewrite IH.
  destruct (has_time t r) eqn:Hr; [| reflexivity].
  destruct (has_time t x) eqn:Hx; [| reflexivity].
  unfold has_time in Hr, Hx.
  apply Qeq_bool_iff in Hr. apply Qeq_bool_iff in Hx. lra.
Qed.

Lemma sort_by_time_stable (t : Q) (l : list Finisher) :
  filter (has_time t) (sort_by_time l) = filter (has_time t) l.
Proof.
  induction l as [| r l IH]; [reflexivity |].
  simpl sort_by_time. rewrite insert_by_time_filter. simpl. now rewrite IH.
Qed.

Lemma number_filter (p : Finisher -> bool) (l : list Finisher) (start : Z) :
  map finisher (filter (fun r => p (finisher r)) (number l start)) =
  filter p l.
Proof.
  revert start. induction l as [| x l IH]; intros start; simpl.
  - reflexivity.
  - fold (number l (start + 1)). destruct (p x); simpl; now rewrite IH.
Qed.

(** ** The prize allocator *)

Lemma prize_of_position (prizes : list Q) (r : Ranked) :
  (1 <= POSITION r)%Z ->
  prize_of prizes r = Some (prize_at prizes (POSITION r)).
Proof.
  intros Hp. unfold prize_of, prize_at, py_getitem.
  destruct (POSITION r <=? _)%Z eqn:Hle.
  - apply Z.leb_le in Hle.
    replace (POSITION r - 1 <? 0)%Z with false by (symmetry; apply Z.ltb_ge; lia).
    replace (0 <=? POSITION r - 1)%Z with true by (symmetry; apply Z.leb_le; lia).
    replace (POSITION r - 1 <? _)%Z with true by (symmetry; apply Z.ltb_lt; lia).
    simpl. apply nth_error_nth'. lia.
  - apply Z.leb_gt in Hle. rewrite nth_overflow; [reflexivity | lia].
Qed.

Lemma assign_prizes_by_position (prizes : list Q) (l : list Ranked) :
  Forall (fun r => (1 <= POSITION r)%Z) l ->
  assign_prizes prizes l =
  Some (map (fun r => mkResult r (prize_at prizes (POSITION r))) l).
Proof.
  induction 1 as [| r l Hr Hl IH]; simpl.
  - reflexivity.
  - now rewrite prize_of_position, IH.
Qed.

Lemma assign_positions_from_1 (fins : list Finisher) :
  Forall (fun r => (1 <= POSITION r)%Z) (assign_positions fins).
Proof. apply (number_from fins 1). Qed.






Lemma prizes_of_ranking (prizes : list Q) (fins : list Finisher) :
  map (fun r => prize_at prizes (POSITION r)) (assign_positions fins) =
  map (fun i => nth i prizes 0.0) (seq 0 (List.length fins)).
Proof.
  rewrite <- (map_map POSITION (prize_at prizes)).
  change (assign_positions fins) with (number fins 1).
  rewrite number_positions, map_map. apply map_ext.
  intros i. unfold prize_at. f_equal. lia.
Qed.




(** ** The statements of the [try] block, in order *)

Lemma for_each_map {A B : Type} (f : A -> B) (l : list A)
    (body : B -> M unit) (c : Conn) :
  for_each (map f l) body c = for_each l (fun x => body (f x)) c.
Proof.
  revert c. induction l as [| x l IH]; intros c; simpl; [reflexivity |].
  unfold bind. destruct (body (f x) c) as [[e | u] c']; [reflexivity | apply IH].
Qed.

Lemma for_each_app {A : Type} (l1 l2 : list A) (body : A -> M unit)
    (c : Conn) :
  for_each (l1 ++ l2) body c = (for_each l1 body ;; for_each l2 body) c.
Proof.
  revert c. induction l1 as [| x l1 IH]; intros c; simpl; [reflexivity |].
  unfold bind in *. destruct (body x c) as [[e | u] c']; [reflexivity | apply IH].
Qed.

Lemma settle_as_script (faults : nat -> bool) (race_uid track : string)
    (distance fee prize_pool : Q) (results : list Result) (c : Conn) :
  settle faults race_uid track distance fee prize_pool results c =
  for_each (script race_uid track distance fee prize_pool results)
    (run faults) c.
Proof.
  unfold settle, script. simpl. unfold bind.
  destruct (run faults BEGIN c) as [[e | u] c1]; [reflexivity |].
  destruct (run faults (INSERT_INTO_RACES _) c1) as [[e | u'] c2];
    [reflexivity |].
  rewrite for_each_app. unfold bind. rewrite for_each_map.
  destruct (for_each results _ c2) as [[e | u''] c3]; [reflexivity |].
  rewrite for_each_app. unfold bind. rewrite for_each_map.
  destruct (for_each (merged_frame fee results) _ c3) as [[e | u3] c4];
    [reflexivity |].
  simpl. unfold bind.
  destruct (run faults COMMIT c4) as [[e | []] c5]; reflexivity.
Qed.

(** Either every statement executes, or the first one the oracle marks
    raises after the ones before it have executed. *)
Lemma run_all_spec (faults : nat -> bool) (l : list Stmt) (c : Conn) :
  match for_each l (run faults) c with
  | (inr _, c') =>
      c' = fold_left step l c /\
      forall j, (j < List.length l)%nat -> faults (issued c + j)%nat = false
  | (inl e, c') =>
      exists k, (k < List.length l)%nat /\
        e = DatabaseError (issued c + k) /\
        faults (issued c + k)%nat = true /\
        (forall j, (j < k)%nat -> faults (issued c + j)%nat = false) /\
        c' = skip (fold_left step (firstn k l) c)
  end.
Proof.
  revert c. induction l as [| s l IH]; intros c; simpl.
  - split; [reflexivity | intros j Hj; lia].
  - unfold bind, run at 1.
    destruct (faults (issued c)) eqn:Hf.
    + exists 0%nat. rewrite Nat.add_0_r. simpl.
      repeat split; [lia | exact Hf | intros j Hj; lia].
    + fold (step c s). specialize (IH (step c s)).
      destruct (for_each l (run faults) (step c s)) as [[e | u] c'].
      * destruct IH as (k & Hk & He & Hfk & Hmin & Hc').
        simpl in He, Hfk, Hmin.
        exists (S k). simpl.
        rewrite Nat.add_succ_r.
        repeat split; [lia | exact He | exact Hfk | | exact Hc'].
        intros [| j] Hj; [now rewrite Nat.add_0_r |].
        rewrite Nat.add_succ_r. apply Hmin. lia.
      * destruct IH as [Hc' Hall]. split; [exact Hc' |].
        intros [| j] Hj; [now rewrite Nat.add_0_r |].
        rewrite Nat.add_succ_r. apply (Hall j). lia.
Qed.

Lemma step_issued (l : list Stmt) (c : Conn) :
  issued (fold_left step l c) = (issued c + List.length l)%nat.
Proof.
  revert c. induction l as [| s l IH]; intros c; simpl; [lia |].
  rewrite IH. simpl. lia.
Qed.


(** Inside a transaction, writes change the working copy only. *)
Lemma writes_in_txn (ws : list Stmt) (c : Conn) (w : Store) :
  Forall (fun s => is_write s = true) ws ->
  txn c = Some w ->
  committed (fold_left step ws c) = committed c /\
  txn (fold_left step ws c) =
    Some (fold_left (fun w s => apply_write s w) ws w).
Proof.
  intros Hws. revert c w.
  induction Hws as [| s ws Hs Hws IH]; intros c w Hw; simpl.
  - auto.
  - assert (Hstep : committed (step c s) = committed c /\
                    txn (step c s) = Some (apply_write s w)).
    { unfold step, exec. rewrite Hw.
      destruct s; simpl in *; try discriminate; auto. }
    destruct Hstep as [Hc Ht].
    destruct (IH (step c s) _ Ht) as [Hc' Ht'].
    rewrite Hc', Ht'. auto.
Qed.

Lemma script_writes (race_uid track : string) (distance fee prize_pool : Q)
    (results : list Result) :
  script race_uid track distance fee prize_pool results =
  BEGIN :: writes race_uid track distance fee prize_pool results ++ [COMMIT].
Proof. unfold script, writes. simpl. now rewrite <- app_assoc. Qed.

Lemma writes_are_writes (race_uid track : string)
    (distance fee prize_pool : Q) (results : list Result) :
  Forall (fun s => is_write s = true)
    (writes race_uid track distance fee prize_pool results).
Proof.
  unfold writes. constructor; [reflexivity |].
  apply Forall_app. split; apply Forall_forall; intros s Hs;
    apply in_map_iff in Hs; destruct Hs as [x [<- _]]; reflexivity.
Qed.

Lemma writes_length (race_uid track : string) (distance fee prize_pool : Q)
    (results : list Result) :
  List.length (writes race_uid track distance fee prize_pool results) =
  S (List.length results + List.length (merged_frame fee results)).
Proof. unfold writes. simpl. now rewrite length_app, !length_map. Qed.

(** The whole script commits the working copy the writes have built. *)
Lemma script_commits (race_uid track : string) (distance fee prize_pool : Q)
    (results : list Result) (db : Store) :
  let l := script race_uid track distance fee prize_pool results in
  fold_left step l (idle db) =
  mkConn (fold_left (fun w s => apply_write s w)
            (writes race_uid track distance fee prize_pool results) db)
    None (List.length l).
Proof.
  cbv zeta. rewrite script_writes.
  pose proof (writes_are_writes race_uid track distance fee prize_pool results)
    as Hw.
  remember (writes race_uid track distance fee prize_pool results) as ws
    eqn:Hws.
  clear Hws.
  change (fold_left step (BEGIN :: ws ++ [COMMIT]) (idle db))
    with (fold_left step (ws ++ [COMMIT]) (step (idle db) BEGIN)).
  rewrite fold_left_app.
  destruct (writes_in_txn ws (step (idle db) BEGIN) db Hw eq_refl) as [Hc Ht].
  pose proof (step_issued ws (step (idle db) BEGIN)) as Hi.
  simpl fold_left at 1.
  unfold step at 1, exec. rewrite Ht, Hi. simpl.
  f_equal. rewrite length_app. simpl. lia.
Qed.

(** ** What the writes leave in the store *)

Lemma inserts_store (race_uid : string) (rs : list Result) (db : Store) :
  fold_left (fun w s => apply_write s w)
    (map (fun r => INSERT_INTO_RACE_RESULTS (result_row race_uid r)) rs) db =
  mkStore (TEAMS db) (CARS db) (RACES db)
    (RACE_RESULTS db ++ map (result_row race_uid) rs).
Proof.
  revert db. induction rs as [| r rs IH]; intros db; simpl.
  - rewrite app_nil_r. now destruct db.
  - rewrite IH. simpl. now rewrite <- app_assoc.
Qed.

Lemma updates_store (ms : list Merged.row) (db : Store) :
  fold_left (fun w s => apply_write s w)
    (map (fun row => UPDATE_TEAMS_SET_BUDGET (delta row) (row_team_id row))
       ms) db =
  mkStore (apply_deltas ms (TEAMS db)) (CARS db) (RACES db) (RACE_RESULTS db).
Proof.
  revert db. induction ms as [| m ms IH]; intros db; simpl.
  - now destruct db.
  - rewrite IH. reflexivity.
Qed.

Lemma writes_store (race_uid track : string) (distance fee prize_pool : Q)
    (results : list Result) (db : Store) :
  fold_left (fun w s => apply_write s w)
    (writes race_uid track distance fee prize_pool results) db =
  mkStore (apply_deltas (merged_frame fee results) (TEAMS db)) (CARS db)
    (RACES db ++ [Races.mk race_uid track distance fee prize_pool])
    (RACE_RESULTS db ++ map (result_row race_uid) results).
Proof.
  unfold writes. simpl. rewrite fold_left_app, inserts_store, updates_store.
  reflexivity.
Qed.

(** ** Grouping by team *)

Lemma insert_key_in (k x : Z) (l : list Z) :
  In x (insert_key k l) <-> x = k \/ In x l.
Proof.
  induction l as [| y l IH]; simpl.
  - intuition.
  - destruct (k <? y)%Z eqn:Hlt; [simpl; intuition |].
    destruct (k =? y)%Z eqn:Heq.
    + apply Z.eqb_eq in Heq. subst. simpl. intuition.
    + simpl. rewrite IH. intuition.
Qed.

Lemma group_keys_in (x : Z) (l : list Z) : In x (group_keys l) <-> In x l.
Proof.
  induction l as [| k l IH]; simpl; [reflexivity |].
  rewrite insert_key_in, IH. intuition.
Qed.

Lemma insert_key_sorted (k : Z) (l : list Z) :
  StronglySorted Z.lt l -> StronglySorted Z.lt (insert_key k l).
Proof.
  induction 1 as [| y l Hs IH Hy]; simpl.
  - constructor; constructor.
  - destruct (k <? y)%Z eqn:Hlt.
    + apply Z.ltb_lt in Hlt. constructor; [now constructor |].
      constructor; [exact Hlt |].
      eapply Forall_impl; [| exact Hy]. simpl. intros z Hz. lia.
    + destruct (k =? y)%Z eqn:Heq; [now constructor |].
      apply Z.ltb_ge in Hlt. apply Z.eqb_neq in Heq.
      constructor; [exact IH |].
      apply Forall_forall. intros z Hz. apply insert_key_in in Hz.
      rewrite Forall_forall in Hy. destruct Hz as [-> | Hz]; [lia | auto].
Qed.

Lemma group_keys_sorted (l : list Z) : StronglySorted Z.lt (group_keys l).
Proof.
  induction l as [| k l IH]; simpl; [constructor |].
  now apply insert_key_sorted.
Qed.

Lemma sorted_NoDup (l : list Z) : StronglySorted Z.lt l -> NoDup l.
Proof.
  induction 1 as [| y l Hs IH Hy]; constructor; [| exact IH].
  intros Hin. rewrite Forall_forall in Hy. specialize (Hy y Hin). lia.
Qed.

Lemma group_keys_NoDup (l : list Z) : NoDup (group_keys l).
Proof. apply sorted_NoDup, group_keys_sorted. Qed.


Lemma filter_key_unique {B : Type} (P : Z -> B) (keys : list Z) (t : Z) :
  NoDup keys -> In t keys ->
  filter (fun p => (fst p =? t)%Z) (map (fun k => (k, P k)) keys) = [(t, P t)].
Proof.
  induction 1 as [| k keys Hk Hnd IH]; intros Hin; [destruct Hin |].
  simpl. destruct (k =? t)%Z eqn:Heq.
  - apply Z.eqb_eq in Heq. subst k. f_equal.
    clear IH Hin Hnd. induction keys as [| k' keys IH']; [reflexivity |].
    simpl. destruct (k' =? t)%Z eqn:Heq'.
    + apply Z.eqb_eq in Heq'. subst. exfalso. apply Hk. now left.
    + apply IH'. intros Hin. apply Hk. now right.
  - apply Z.eqb_neq in Heq. destruct Hin as [-> | Hin]; [congruence | auto].
Qed.

Lemma flat_map_single {A B : Type} (f : A -> list B) (h : A -> B)
    (l : list A) :
  (forall x, In x l -> f x = [h x]) -> flat_map f l = map h l.
Proof.
  induction l as [| x l IH]; intros H; simpl; [reflexivity |].
  rewrite (H x (or_introl eq_refl)), IH; [reflexivity |].
  intros y Hy. apply H. now right.
Qed.

(** The merged frame has one row per team that has an entry. *)
Lemma merged_frame_rows (fee : Q) (results : list Result) :
  merged_frame fee results =
  map (merged_row fee results) (group_keys (map team_of results)).
Proof.
  unfold merged_frame, merge_left, fees_frame, prizes_team_frame.
  set (keys := group_keys (map team_of results)).
  rewrite flat_map_concat_map, map_map, <- flat_map_concat_map.
  rewrite (flat_map_single _ (merged_row fee results)).
  - rewrite map_map. reflexivity.
  - intros t Ht. simpl.
    rewrite (filter_key_unique
               (fun t => Qsum (map PRIZE_USD (filter (in_team t) results)))
               keys t (group_keys_NoDup _) Ht).
    reflexivity.
Qed.



(** ** One team row under the updates *)

Lemma apply_deltas_rows (ms : list Merged.row) (teams : list Teams.row) :
  apply_deltas ms teams = map (update_row ms) teams.
Proof.
  unfold apply_deltas, update_row. revert teams.
  induction ms as [| m ms IH]; intros teams; simpl.
  - symmetry. apply map_id.
  - rewrite IH, map_map. reflexivity.
Qed.



(** ** The handler *)


Lemma script_length (race_uid track : string) (distance fee prize_pool : Q)
    (results : list Result) :
  List.length (script race_uid track distance fee prize_pool results) =
  S (S (S (List.length results + List.length (merged_frame fee results)))).
Proof.
  rewrite script_writes, length_cons, length_app, writes_length.
  simpl. lia.
Qed.

Lemma simulate_allocates (distance prize_pool : Q) (cars : list CarsDf.row)
    (g : Rng) :
  exists results,
    allocate (fst (simulate distance cars g)) prize_pool prize_split =
    Some results /\
    List.length results = List.length cars.
Proof.
  rewrite simulate_ranking. unfold allocate.
  rewrite assign_prizes_by_position; [| apply number_from].
  eexists. split; [reflexivity |].
  now rewrite length_map, number_length, sort_by_time_length, run_cars_length.
Qed.

(** With at least one car in the frame, the handler simulates, allocates
    and runs the [try] block; what it ends in is decided there. *)
Lemma start_race_runs_script (faults : nat -> bool) (track : string)
    (distance fee prize_pool : Q) (race_uid : string) (db : Store) (g : Rng)
    (results : list Result) :
  select_cars_join_teams db <> [] ->
  allocate (fst (simulate distance (select_cars_join_teams db) g))
    prize_pool prize_split = Some results ->
  start_race faults track distance fee prize_pool race_uid (idle db) g =
  let g' := snd (simulate distance (select_cars_join_teams db) g) in
  match for_each (script race_uid track distance fee prize_pool results)
          (run faults) (idle db) with
  | (inr _, c') => (RaceCompleted results, c', g')
  | (inl e, c') =>
      match run faults ROLLBACK c' with
      | (inr _, c'') => (FailedToPersist e, c'', g')
      | (inl e', c'') => (Uncaught e', c'', g')
      end
  end.
Proof.
  intros Hcars Halloc. unfold start_race.
  change (visible (idle db)) with db.
  destruct (select_cars_join_teams db) as [| row cars] eqn:Hsel;
    [congruence |].
  destruct (simulate distance (row :: cars) g) as [ranking g'].
  simpl in Halloc. rewrite Halloc. simpl snd. cbv zeta.
  rewrite settle_as_script. reflexivity.
Qed.

(** ** Balances after a settlement that succeeded *)

Lemma Forall2_map_right {A B : Type} (R : A -> B -> Prop) (f : A -> B)
    (l : list A) :
  (forall x, R x (f x)) -> Forall2 R l (map f l).
Proof. intros H. induction l; simpl; constructor; auto. Qed.

Lemma start_race_completed (faults : nat -> bool) (track : string)
    (distance fee prize_pool : Q) (race_uid : string) (db : Store) (g : Rng)
    (results : list Result) (c : Conn) (g' : Rng) :
  start_race faults track distance fee prize_pool race_uid (idle db) g =
    (RaceCompleted results, c, g') ->
  c = mkConn
        (mkStore (apply_deltas (merged_frame fee results) (TEAMS db))
           (CARS db)
           (RACES db ++ [Races.mk race_uid track distance fee prize_pool])
           (RACE_RESULTS db ++ map (result_row race_uid) results))
        None
        (S (S (S (List.length results +
                  List.length (merged_frame fee results))))).
Proof.
  intros H.
  destruct (select_cars_join_teams db) as [| row cars] eqn:Hsel.
  { unfold start_race in H. change (visible (idle db)) with db in H.
    rewrite Hsel in H. discriminate. }
  assert (Hcars : select_cars_join_teams db <> []) by (rewrite Hsel; discriminate).
  destruct (simulate_allocates distance prize_pool
              (select_cars_join_teams db) g) as [results0 [Halloc _]].
  rewrite (start_race_runs_script faults track distance fee prize_pool
             race_uid db g results0 Hcars Halloc) in H.
  cbv zeta in H.
  pose proof (run_all_spec faults
                (script race_uid track distance fee prize_pool results0)
                (idle db)) as Hrun.
  destruct (for_each _ (run faults) (idle db)) as [[e | u] c'].
  - destruct (run faults ROLLBACK c') as [[e' | u'] c'']; discriminate.
  - destruct Hrun as [Hc' _]. injection H as <- <- _.
    now rewrite Hc', script_commits, writes_store, script_length.
Qed.

(** ** No eligible participants *)

(** C8: when no car is joined to a team, the handler ends in the "No cars
    assigned to teams." error; the session, and with it every table, and
    the random generator are left as they were. *)
Theorem no_cars_no_race (faults : nat -> bool) (track : string)
    (distance fee prize_pool : Q) (race_uid : string) (c : Conn) (g : Rng) :
  select_cars_join_teams (visible c) = [] ->
  start_race faults track distance fee prize_pool race_uid c g =
  (NoCarsAssigned, c, g).
Proof. intros H. unfold start_race. now rewrite H. Qed.

Lemma no_cars_no_race_witness :
  select_cars_join_teams
    (visible (idle (mkStore demo_teams [demo_car 4 320 None] [] []))) = [] /\
  start_race no_faults "Riga Street Circuit" 100 1000 10000 "race-1"
    (idle (mkStore demo_teams [demo_car 4 320 None] [] [])) demo_rng =
  (NoCarsAssigned, idle (mkStore demo_teams [demo_car 4 320 None] [] []),
   demo_rng).
Proof.
  split; [reflexivity |].
  apply (no_cars_no_race no_faults "Riga Street Circuit" 100 1000 10000
           "race-1" (idle (mkStore demo_teams [demo_car 4 320 None] [] []))
           demo_rng).
  reflexivity.
Defined.

(** ** Attributes and parameters are not validated *)

(** C9, as amended: the handler checks no vehicle attribute and no race
    parameter.  Whenever at least one car is joined to a team, whatever
    the attribute and parameter values, it draws two or three random
    numbers for each car and issues the statements of the settlement; the
    run ends as completed or as a failure of the store, and when no
    statement raises the race is recorded. *)
Theorem attributes_are_not_validated (faults : nat -> bool)
    (track : string) (distance fee prize_pool : Q) (race_uid : string)
    (db : Store) (g : Rng) :
  select_cars_join_teams db <> [] ->
  let out :=
    start_race faults track distance fee prize_pool race_uid (idle db) g in
  let n := List.length (select_cars_join_teams db) in
  (cursor g + 2 * n <= cursor (snd out) <= cursor g + 3 * n)%nat /\
  (1 <= issued (snd (fst out)))%nat /\
  attempted (fst (fst out)) /\
  ((forall j, faults j = false) ->
     exists results,
       fst (fst out) = RaceCompleted results /\
       RACES (committed (snd (fst out))) =
       RACES db ++ [Races.mk race_uid track distance fee prize_pool]).
Proof.
  intros Hcars. cbv zeta.
  destruct (simulate_allocates distance prize_pool
              (select_cars_join_teams db) g) as [results [Halloc _]].
  rewrite (start_race_runs_script faults track distance fee prize_pool
             race_uid db g results Hcars Halloc).
  cbv zeta.
  assert (Hg : snd (simulate distance (select_cars_join_teams db) g) =
               snd (run_cars distance (select_cars_join_teams db) g)).
  { unfold simulate. now destruct (run_cars _ _ g). }
  pose proof (run_cars_cursor distance (select_cars_join_teams db) g) as Hcur.
  rewrite <- Hg in Hcur.
  pose proof (run_all_spec faults
                (script race_uid track distance fee prize_pool results)
                (idle db)) as Hrun.
  destruct (for_each _ (run faults) (idle db)) as [[e | u] c'].
  - destruct Hrun as (k & Hk & He & Hfk & _ & Hc').
    unfold run. destruct (faults (issued c')) eqn:Hrb; cbn [fst snd issued].
    + repeat split; try lia.
      * right. right. eexists. reflexivity.
      * intros Hnone. rewrite Hnone in Hfk. discriminate.
    + repeat split; try lia.
      * right. left. subst e. eexists. reflexivity.
      * intros Hnone. rewrite Hnone in Hfk. discriminate.
  - destruct Hrun as [Hc' _]. cbn [fst snd].
    rewrite Hc', script_commits, writes_store. cbn [issued committed RACES].
    rewrite script_length.
    repeat split; try lia.
    + left. eexists. reflexivity.
    + intros _. eexists. split; reflexivity.
Qed.

Lemma attributes_are_not_validated_witness :
  select_cars_join_teams
    (mkStore demo_teams [demo_car 1 (-5) (Some 1%Z)] [] []) <> [] /\
  attempted
    (fst (fst (start_race no_faults "Riga Street Circuit" (-100) (-1) (-1)
                 "race-1"
                 (idle (mkStore demo_teams [demo_car 1 (-5) (Some 1%Z)] [] []))
                 demo_rng))).
Proof.
  assert (Hcars : select_cars_join_teams
            (mkStore demo_teams [demo_car 1 (-5) (Some 1%Z)] [] []) <> [])
    by (vm_compute; discriminate).
  split; [exact Hcars |].
  exact (proj1 (proj2 (proj2
    (attributes_are_not_validated no_faults "Riga Street Circuit" (-100) (-1)
       (-1) "race-1" (mkStore demo_teams [demo_car 1 (-5) (Some 1%Z)] [] [])
       demo_rng Hcars)))).
Defined.

(** C9 as stated fails: a car stored with a negative top speed is
    simulated like any other and the race is recorded. *)
Lemma invalid_input_is_raced_and_recorded :
  ~ (forall faults track distance fee prize_pool race_uid db g,
        (exists row, In row (select_cars_join_teams db) /\
           (CarsDf.TOP_SPEED_KMH row <= 0 \/
            CarsDf.ACCEL_0_100_S row <= 0 \/
            CarsDf.RELIABILITY row < 0 \/ 1 < CarsDf.RELIABILITY row)) \/
        distance < 0 \/ fee < 0 \/ prize_pool < 0 ->
        let out :=
          start_race faults track distance fee prize_pool race_uid
            (idle db) g in
        (forall results, fst (fst out) <> RaceCompleted results) /\
        snd out = g /\
        snd (fst out) = idle db).
Proof.
  intros H.
  specialize (H no_faults "Riga Street Circuit"%string 100 1000 10000
                "race-1"%string
                (mkStore demo_teams [demo_car 1 (-5) (Some 1%Z)] [] [])
                demo_rng).
  cbv zeta in H.
  remember (start_race _ _ _ _ _ _ _ _) as out eqn:Hout in H.
  vm_compute in Hout. subst out.
  destruct H as [_ [Hg _]].
  - left. eexists. split; [left; reflexivity |]. left. discriminate.
  - discriminate Hg.
Qed.

(** ** Three entries of three teams *)






(** ** The factors of the performance model *)


Lemma accel_factor_floor (accel : Q) : 0.8 <= accel_factor accel.
Proof. unfold accel_factor. apply py_max_lower. Qed.

Lemma clamp_monotone (x y top : Q) :
  x <= y -> py_max 60.0 (py_min x top) <= py_max 60.0 (py_min y top).
Proof.
  intros Hxy. unfold py_max, py_min.
  case_Qlt top x; case_Qlt top y;
    repeat match goal with
           | |- context [Qlt_bool ?a ?b] => case_Qlt a b
           end; lra.
Qed.

(** For the same random draws, a more reliable car is never slower: when
    the top speed, the handling and the noise factor are non-negative and
    the penalty draw is at most 1, the effective speed does not decrease
    with the reliability (a breakdown never makes a car faster). *)
Theorem effective_speed_monotone_in_reliability
    (top accel hand rel rel' : Q) (g : Rng) :
  0 <= top -> 0 <= hand ->
  0 <= 1.0 + 0.07 * tape g (cursor g) ->
  tape g (S (S (cursor g))) <= 1 ->
  rel <= rel' ->
  fst (effective_speed top accel rel hand g) <=
  fst (effective_speed top accel rel' hand g).
Proof.
  intros Htop Hhand Hnoise Hpen Hrel.
  pose proof (accel_factor_floor accel) as Ha.
  unfold effective_speed, np_random_normal, np_random_rand,
    np_random_uniform, draw.
  cbn [tape cursor].
  set (z := tape g (cursor g)) in *.
  set (u := tape g (S (cursor g))).
  set (p := tape g (S (S (cursor g)))) in *.
  set (af := accel_factor accel) in *.
  assert (Hh : 0 <= handling_factor hand).
  { unfold handling_factor.
    assert (0 <= hand / 1000.0) by (apply Qle_shift_div_l; lra). lra. }
  set (hf := handling_factor hand) in *.
  assert (Hbase : 0 <= 0.7 * top * af * hf * (1.0 + 0.07 * z)).
  { assert (0 <= 0.7 * top * af) by nra.
    assert (0 <= 0.7 * top * af * hf) by nra. nra. }
  set (base := 0.7 * top * af * hf * (1.0 + 0.07 * z)) in *.
  case_Qlt rel u; case_Qlt rel' u; cbn [fst]; try lra.
  apply clamp_monotone. nra.
Qed.

Lemma effective_speed_monotone_in_reliability_witness :
  fst (effective_speed 280 3.6 0.5 88 (mkRng (fun _ => 0.75) 0)) <=
  fst (effective_speed 280 3.6 0.92 88 (mkRng (fun _ => 0.75) 0)).
Proof.
  apply (effective_speed_monotone_in_reliability 280 3.6 88 0.5 0.92
           (mkRng (fun _ => 0.75) 0));
    vm_compute; discriminate.
Defined.

(** ** Rounding is monotone *)

Lemma round_half_even_monotone (x y : Q) :
  x <= y -> (round_half_even x <= round_half_even y)%Z.
Proof.
  intros Hxy.
  pose proof (Qfloor_resp_le x y Hxy) as Hf.
  pose proof (Qfloor_le x) as Hx1. pose proof (Qlt_floor x) as Hx2.
  pose proof (Qfloor_le y) as Hy1. pose proof (Qlt_floor y) as Hy2.
  rewrite inject_Z_plus in Hx2, Hy2.
  change (inject_Z 1) with 1 in Hx2, Hy2.
  destruct (Z.eq_dec (Qfloor x) (Qfloor y)) as [Heq | Hne].
  - unfold round_half_even. rewrite <- Heq in *.
    case_Qlt (x - inject_Z (Qfloor x)) (1 # 2);
      case_Qlt (y - inject_Z (Qfloor x)) (1 # 2);
      repeat match goal with
             | |- context [Qlt_bool ?a ?b] => case_Qlt a b
             end;
      try destruct (Z.even (Qfloor x)); try lia; lra.
  - assert (Hlt : (Qfloor x + 1 <= Qfloor y)%Z) by lia.
    assert (Hux : (round_half_even x <= Qfloor x + 1)%Z).
    { unfold round_half_even.
      destruct (Qlt_bool _ _); [lia |].
      destruct (Qlt_bool _ _); [lia |].
      destruct (Z.even _); lia. }
    assert (Hly : (Qfloor y <= round_half_even y)%Z).
    { unfold round_half_even.
      destruct (Qlt_bool _ _); [lia |].
      destruct (Qlt_bool _ _); [lia |].
      destruct (Z.even _); lia. }
    lia.
Qed.

Lemma round_monotone (x y : Q) (n : nat) : x <= y -> round x n <= round y n.
Proof.
  intros Hxy. unfold round. cbv zeta.
  pose proof (scale_pos n) as Hs.
  set (s := inject_Z (10 ^ Z.of_nat n)) in *.
  assert (Hm : x * s <= y * s) by nra.
  apply round_half_even_monotone in Hm. rewrite Zle_Qle in Hm.
  apply Qle_shift_div_l; [exact Hs |].
  unfold Qdiv. rewrite <- Qmult_assoc, (Qmult_comm (/ s)), Qmult_inv_r by lra.
  lra.
Qed.

(** ** What the allocator pays in total, and to whom *)

Lemma allocate_ranking (fins : list Finisher) (prize_pool : Q)
    (split : list Q) (results : list Result) :
  allocate (assign_positions fins) prize_pool split = Some results ->
  results =
  map (fun r => mkResult r (prize_at (prize_table prize_pool split)
                              (POSITION r)))
    (assign_positions fins).
Proof.
  unfold allocate.
  rewrite (assign_prizes_by_position _ _ (assign_positions_from_1 fins)).
  intros H. now injection H as <-.
Qed.

Lemma nth_over_seq {A : Type} (l : list A) (d : A) (n : nat) :
  map (fun i => nth i l d) (seq 0 n) =
  firstn n l ++ repeat d (n - List.length l).
Proof.
  revert l. induction n as [| n IH]; intros l; [now destruct l |].
  cbn [seq map]. rewrite <- seq_shift, map_map.
  destruct l as [| a l].
  - cbn [firstn List.length Nat.sub repeat app nth]. f_equal.
    specialize (IH []). rewrite firstn_nil in IH.
    cbn [List.length app] in IH. rewrite Nat.sub_0_r in IH.
    rewrite <- IH. apply map_ext. now intros [| i].
  - cbn [firstn List.length Nat.sub nth app]. f_equal. apply IH.
Qed.

Lemma Qsum_app (l l' : list Q) : Qsum (l ++ l') == Qsum l + Qsum l'.
Proof.
  induction l as [| x l IH]; cbn [app].
  - change (Qsum []) with 0. lra.
  - rewrite !Qsum_cons, IH. lra.
Qed.

Lemma Qsum_repeat_zero (n : nat) : Qsum (repeat 0.0 n) == 0.
Proof.
  induction n as [| n IH]; cbn [repeat]; [reflexivity |].
  rewrite Qsum_cons, IH. reflexivity.
Qed.

(** The prizes paid add up to the first N entries of the prize table, N
    being the number of entrants: with at least as many entrants as the
    split curve has fractions the whole table is paid, with fewer the
    prizes of the missing places are paid to nobody. *)
Theorem prizes_paid_are_a_prefix_of_the_table
    (fins : list Finisher) (prize_pool : Q) (split : list Q)
    (results : list Result) :
  allocate (assign_positions fins) prize_pool split = Some results ->
  Qsum (map PRIZE_USD results) ==
    Qsum (firstn (List.length fins) (prize_table prize_pool split)) /\
  ((List.length split <= List.length fins)%nat ->
   Qsum (map PRIZE_USD results) == Qsum (prize_table prize_pool split)).
Proof.
  intros H. apply allocate_ranking in H. subst results.
  rewrite map_map. cbn [PRIZE_USD].
  rewrite prizes_of_ranking, nth_over_seq, Qsum_app, Qsum_repeat_zero.
  split; [lra |].
  intros Hlen. rewrite firstn_all2; [lra |].
  unfold prize_table. now rewrite length_map.
Qed.

Lemma prizes_paid_are_a_prefix_of_the_table_witness :
  exists results,
    allocate
      (assign_positions [mkFinisher 7 "Lightning X" 1 "Red" 201.39 29.792])
      10000 prize_split = Some results /\
    Qsum (map PRIZE_USD results) ==
      Qsum (firstn 1 (prize_table 10000 prize_split)).
Proof.
  eexists. split; [reflexivity |].
  apply (prizes_paid_are_a_prefix_of_the_table
           [mkFinisher 7 "Lightning X" 1 "Red" 201.39 29.792]
           10000 prize_split).
  reflexivity.
Defined.

Lemma prize_table_descends (prize_pool : Q) (i j : nat) :
  0 <= prize_pool -> (i <= j)%nat ->
  nth j (prize_table prize_pool prize_split) 0.0 <=
  nth i (prize_table prize_pool prize_split) 0.0.
Proof.
  intros Hpool Hij. unfold prize_table, prize_split. cbn [map].
  assert (H3 : 0 <= round (prize_pool * 0.1) 2)
    by (apply round_nonneg; nra).
  assert (H2 : round (prize_pool * 0.1) 2 <= round (prize_pool * 0.3) 2)
    by (apply round_monotone; nra).
  assert (H1 : round (prize_pool * 0.3) 2 <= round (prize_pool * 0.6) 2)
    by (apply round_monotone; nra).
  destruct i as [| [| [| i]]]; destruct j as [| [| [| j]]];
    cbn [nth]; try lia;
    repeat match goal with
           | |- context [match ?k with O => _ | S _ => _ end] => destruct k
           end; lra.
Qed.

(** With the split of line 187 and a prize pool that is not negative, a
    better place never earns less: of two results of a race, the one with
    the smaller position, and so the one with the strictly smaller
    recorded time, has a prize at least as large as the other's. *)
Theorem better_place_never_earns_less
    (distance prize_pool : Q) (cars : list CarsDf.row) (g : Rng)
    (results : list Result) :
  0 <= prize_pool ->
  allocate (fst (simulate distance cars g)) prize_pool prize_split =
    Some results ->
  forall a b, In a results -> In b results ->
    ((POSITION (ranked a) <= POSITION (ranked b))%Z ->
     PRIZE_USD b <= PRIZE_USD a) /\
    (FINISH_TIME_MIN (finisher (ranked a)) <
     FINISH_TIME_MIN (finisher (ranked b)) ->
     PRIZE_USD b <= PRIZE_USD a).
Proof.
  intros Hpool H. rewrite simulate_ranking in H.
  set (fins := sort_by_time (fst (run_cars distance cars g))) in *.
  change (number fins 1) with (assign_positions fins) in H.
  apply allocate_ranking in H. subst results.
  assert (Hs : StronglySorted ahead (assign_positions fins)).
  { apply number_sorted, sort_by_time_sorted. }
  pose proof (assign_positions_from_1 fins) as Hfrom.
  rewrite Forall_forall in Hfrom.
  intros a b Ha Hb.
  apply in_map_iff in Ha. destruct Ha as [ra [<- Hra]].
  apply in_map_iff in Hb. destruct Hb as [rb [<- Hrb]].
  cbn [ranked PRIZE_USD].
  assert (Hpos : (POSITION ra <= POSITION rb)%Z ->
                 prize_at (prize_table prize_pool prize_split) (POSITION rb)
                 <= prize_at (prize_table prize_pool prize_split)
                      (POSITION ra)).
  { intros Hle. unfold prize_at. apply prize_table_descends; [exact Hpool |].
    specialize (Hfrom ra Hra). cbv beta in Hfrom. lia. }
  split; [exact Hpos |].
  intros Hlt. apply Hpos.
  destruct (sorted_pairs ahead _ Hs ra rb Hra Hrb) as [-> | [[Hp _] | [_ Ht]]];
    [lia | lia | lra].
Qed.

Lemma better_place_never_earns_less_witness :
  exists results,
    allocate (fst (simulate 100 (select_cars_join_teams demo_db) demo_rng))
      10000 prize_split = Some results /\
    forall a b, In a results -> In b results ->
      (POSITION (ranked a) <= POSITION (ranked b))%Z ->
      PRIZE_USD b <= PRIZE_USD a.
Proof.
  destruct (simulate_allocates 100 10000 (select_cars_join_teams demo_db)
              demo_rng) as [results [Halloc _]].
  exists results. split; [exact Halloc |].
  intros a b Ha Hb.
  assert (Hpool : 0 <= 10000) by (vm_compute; discriminate).
  exact (proj1 (better_place_never_earns_less 100 10000
                  (select_cars_join_teams demo_db) demo_rng results
                  Hpool Halloc a b Ha Hb)).
Defined.

(** ** Who races *)

Lemma in_race_frame (db : Store) (row : CarsDf.row) :
  In row (select_cars_join_teams db) <->
  exists car team,
    In car (CARS db) /\ In team (TEAMS db) /\
    Cars.TEAM_ID car = Some (Teams.TEAM_ID team) /\
    row = join_row car team.
Proof.
  unfold select_cars_join_teams. rewrite in_flat_map. split.
  - intros (car & Hcar & Hrow). apply in_map_iff in Hrow.
    destruct Hrow as (team & <- & Hteam). apply filter_In in Hteam.
    destruct Hteam as [Hteam Hm]. exists car, team.
    repeat split; auto. unfold team_matches in Hm.
    destruct (Cars.TEAM_ID car) as [i |]; [| discriminate].
    apply Z.eqb_eq in Hm. now subst.
  - intros (car & team & Hcar & Hteam & Hid & ->).
    exists car. split; [exact Hcar |]. apply in_map, filter_In.
    split; [exact Hteam |]. unfold team_matches. rewrite Hid.
    apply Z.eqb_refl.
Qed.

Lemma run_cars_entrants (distance : Q) (cars : list CarsDf.row) (g : Rng) :
  map entrant (fst (run_cars distance cars g)) = map frame_entrant cars.
Proof.
  revert g. induction cars as [| row cars IH]; intros g; simpl.
  - reflexivity.
  - unfold run_car.
    destruct (effective_speed _ _ _ _ g) as [speed g1].
    specialize (IH g1). destruct (run_cars distance cars g1) as [rs g2].
    simpl in *. now rewrite IH.
Qed.

Lemma completed_results (faults : nat -> bool) (track : string)
    (distance fee prize_pool : Q) (race_uid : string) (db : Store) (g : Rng)
    (results : list Result) (c : Conn) (g' : Rng) :
  start_race faults track distance fee prize_pool race_uid (idle db) g =
    (RaceCompleted results, c, g') ->
  select_cars_join_teams db <> [] /\
  allocate (fst (simulate distance (select_cars_join_teams db) g))
    prize_pool prize_split = Some results /\
  g' = snd (simulate distance (select_cars_join_teams db) g).
Proof.
  intros H.
  destruct (select_cars_join_teams db) as [| row cars] eqn:Hsel.
  { unfold start_race in H. change (visible (idle db)) with db in H.
    rewrite Hsel in H. discriminate. }
  rewrite <- Hsel in *.
  assert (Hcars : select_cars_join_teams db <> [])
    by (rewrite Hsel; discriminate).
  destruct (simulate_allocates distance prize_pool
              (select_cars_join_teams db) g) as [results0 [Halloc _]].
  rewrite (start_race_runs_script faults track distance fee prize_pool
             race_uid db g results0 Hcars Halloc) in H.
  cbv zeta in H.
  destruct (for_each _ (run faults) (idle db)) as [[e | u] c'].
  - destruct (run faults ROLLBACK c') as [[e' | u'] c'']; discriminate.
  - injection H as <- _ <-. auto.
Qed.

Lemma results_entrants (distance prize_pool : Q) (cars : list CarsDf.row)
    (g : Rng) (results : list Result) :
  allocate (fst (simulate distance cars g)) prize_pool prize_split =
    Some results ->
  Permutation (map (fun r => entrant (finisher (ranked r))) results)
    (map frame_entrant cars).
Proof.
  intros H. rewrite simulate_ranking in H.
  change (number ?l 1) with (assign_positions l) in H.
  apply allocate_ranking in H. subst results.
  rewrite map_map. cbn [ranked].
  rewrite <- (map_map finisher entrant).
  change (assign_positions ?l) with (number l 1).
  rewrite number_finishers, <- (run_cars_entrants distance cars g).
  apply Permutation_map, Permutation_sym, sort_by_time_perm.
Qed.

(** The results of a completed race stand for exactly the rows of the
    race frame (same cars, same teams, each as often); every result
    belongs to a car of CARS whose team is set and names a row of TEAMS.
    A car without a team, or whose team names no row, is in no result. *)
Theorem results_are_the_joined_cars (faults : nat -> bool) (track : string)
    (distance fee prize_pool : Q) (race_uid : string) (db : Store) (g : Rng)
    (results : list Result) (c : Conn) (g' : Rng) :
  start_race faults track distance fee prize_pool race_uid (idle db) g =
    (RaceCompleted results, c, g') ->
  Permutation (map (fun r => entrant (finisher (ranked r))) results)
    (map frame_entrant (select_cars_join_teams db)) /\
  forall r, In r results ->
    exists car team,
      In car (CARS db) /\ In team (TEAMS db) /\
      Cars.TEAM_ID car = Some (Teams.TEAM_ID team) /\
      entrant (finisher (ranked r)) =
      (Cars.CAR_ID car, Cars.CAR_NAME car,
       Teams.TEAM_ID team, Teams.TEAM_NAME team).
Proof.
  intros H. apply completed_results in H. destruct H as (_ & Halloc & _).
  pose proof (results_entrants _ _ _ _ _ Halloc) as Hperm.
  split; [exact Hperm |].
  intros r Hr.
  assert (Hin : In (entrant (finisher (ranked r)))
                  (map frame_entrant (select_cars_join_teams db))).
  { eapply Permutation_in; [exact Hperm |].
    apply (in_map (fun r => entrant (finisher (ranked r)))), Hr. }
  apply in_map_iff in Hin. destruct Hin as (row & Hrow & Hin).
  apply in_race_frame in Hin.
  destruct Hin as (car & team & Hcar & Hteam & Hid & ->).
  exists car, team. repeat split; auto.
Qed.

Lemma results_are_the_joined_cars_witness :
  exists results c g',
    start_race no_faults "Riga Street Circuit" 100 1000 10000 "race-1"
      (idle demo_db) demo_rng = (RaceCompleted results, c, g') /\
    Permutation (map (fun r => entrant (finisher (ranked r))) results)
      (map frame_entrant (select_cars_join_teams demo_db)).
Proof.
  destruct (start_race no_faults "Riga Street Circuit" 100 1000 10000
              "race-1" (idle demo_db) demo_rng) as [[o c] g'] eqn:Hrun.
  assert (Ho : exists results, o = RaceCompleted results).
  { vm_compute in Hrun. injection Hrun as <- _ _. eexists. reflexivity. }
  destruct Ho as [results ->].
  exists results, c, g'. split; [reflexivity |].
  exact (proj1 (results_are_the_joined_cars no_faults "Riga Street Circuit"
                  100 1000 10000 "race-1" demo_db demo_rng results c g'
                  Hrun)).
Defined.

(** ** The primary key of RACE_RESULTS *)

Lemma results_exact_ids (distance prize_pool : Q) (cars : list CarsDf.row)
    (g : Rng) (results : list Result) :
  allocate (fst (simulate distance cars g)) prize_pool prize_split =
    Some results ->
  exact_ids cars -> Forall (fun r => exact_id (team_of r)) results.
Proof.
  intros Halloc Hex. apply Forall_forall. intros r Hr.
  pose proof (results_entrants _ _ _ _ _ Halloc) as Hperm.
  assert (Hin : In (entrant (finisher (ranked r))) (map frame_entrant cars)).
  { eapply Permutation_in; [exact Hperm |].
    apply (in_map (fun r => entrant (finisher (ranked r)))), Hr. }
  apply in_map_iff in Hin. destruct Hin as (row & Hrow & Hin).
  unfold exact_ids in Hex. rewrite Forall_forall in Hex.
  specialize (Hex row Hin). unfold team_of.
  injection Hrow as _ _ Ht _. now rewrite <- Ht.
Qed.

Lemma demo_ids_exact : exact_ids (select_cars_join_teams demo_db).
Proof. repeat constructor; vm_compute; discriminate. Qed.

Lemma at_most_one_team (car : Cars.row) (teams : list Teams.row) :
  NoDup (map Teams.TEAM_ID teams) ->
  (List.length (filter (team_matches car) teams) <= 1)%nat.
Proof.
  induction teams as [| t teams IH]; intros Hnd; simpl; [lia |].
  inversion Hnd as [| ? ? Hnot Hnd']. subst.
  destruct (team_matches car t) eqn:Hm; [| auto].
  assert (Hnone : filter (team_matches car) teams = []).
  { clear IH Hnd Hnd'. unfold team_matches in *.
    destruct (Cars.TEAM_ID car) as [i |]; [| discriminate].
    apply Z.eqb_eq in Hm. subst i.
    induction teams as [| t' teams IH]; [reflexivity |]. simpl.
    destruct (Teams.TEAM_ID t' =? Teams.TEAM_ID t)%Z eqn:E.
    - apply Z.eqb_eq in E. exfalso. apply Hnot. left. exact E.
    - apply IH. intros Hin. apply Hnot. now right. }
  rewrite Hnone. simpl. lia.
Qed.

Lemma frame_car_ids (db : Store) :
  NoDup (map Cars.CAR_ID (CARS db)) ->
  NoDup (map Teams.TEAM_ID (TEAMS db)) ->
  NoDup (map CarsDf.CAR_ID (select_cars_join_teams db)).
Proof.
  intros Hcars Hteams. unfold select_cars_join_teams.
  induction (CARS db) as [| car cars IH]; simpl; [constructor |].
  inversion Hcars as [| ? ? Hnot Hnd]. subst.
  rewrite map_app. specialize (IH Hnd).
  assert (Hrest : forall i,
            In i (map CarsDf.CAR_ID
                    (flat_map
                       (fun c => map (join_row c)
                                   (filter (team_matches c) (TEAMS db)))
                       cars)) ->
            In i (map Cars.CAR_ID cars)).
  { intros i Hi. apply in_map_iff in Hi. destruct Hi as (row & <- & Hrow).
    apply in_flat_map in Hrow. destruct Hrow as (c & Hc & Hrow).
    apply in_map_iff in Hrow. destruct Hrow as (t & <- & _).
    apply in_map_iff. exists c. split; [reflexivity | exact Hc]. }
  pose proof (at_most_one_team car (TEAMS db) Hteams) as Hone.
  destruct (filter (team_matches car) (TEAMS db)) as [| t [| t' ts]].
  - exact IH.
  - simpl. constructor; [| exact IH].
    intros Hin. apply Hnot. now apply Hrest.
  - simpl in Hone. lia.
Qed.

(** With distinct car ids in CARS and distinct team ids in TEAMS, a
    completed race records every car at most once; if the race token is
    new to RACE_RESULTS and the table had no two rows with the same
    (RACE_UID, CAR_ID), it has none afterwards. *)
Theorem race_results_primary_key_kept (faults : nat -> bool)
    (track : string) (distance fee prize_pool : Q) (race_uid : string)
    (db : Store) (g : Rng) (results : list Result) (c : Conn) (g' : Rng) :
  NoDup (map Cars.CAR_ID (CARS db)) ->
  NoDup (map Teams.TEAM_ID (TEAMS db)) ->
  NoDup (map pk (RACE_RESULTS db)) ->
  ~ In race_uid (map RaceResults.RACE_UID (RACE_RESULTS db)) ->
  start_race faults track distance fee prize_pool race_uid (idle db) g =
    (RaceCompleted results, c, g') ->
  NoDup (map (fun r => CAR_ID (finisher (ranked r))) results) /\
  NoDup (map pk (RACE_RESULTS (committed c))).
Proof.
  intros Hcars Hteams Hpk Hnew H.
  pose proof (start_race_completed _ _ _ _ _ _ _ _ _ _ _ H) as Hc.
  apply completed_results in H. destruct H as (_ & Halloc & _).
  pose proof (results_entrants _ _ _ _ _ Halloc) as Hperm.
  assert (Hids : NoDup (map (fun r => CAR_ID (finisher (ranked r))) results)).
  { apply (Permutation_map (fun e => fst (fst (fst e)))) in Hperm.
    rewrite !map_map in Hperm. cbn [entrant frame_entrant fst] in Hperm.
    eapply Permutation_NoDup; [apply Permutation_sym, Hperm |].
    now apply frame_car_ids. }
  split; [exact Hids |].
  subst c. cbn [committed RACE_RESULTS].
  rewrite map_app, map_map.
  apply NoDup_app; [exact Hpk | |].
  - change (fun r => pk (result_row race_uid r))
      with (fun r => (race_uid, CAR_ID (finisher (ranked r)))).
    rewrite <- (map_map (fun r => CAR_ID (finisher (ranked r)))
                  (fun i => (race_uid, i))).
    apply Finite.Injective_map_NoDup; [| exact Hids].
    intros i j Hij. now injection Hij.
  - intros k Hold Hnew'. apply in_map_iff in Hnew'.
    destruct Hnew' as (r & <- & _).
    apply in_map_iff in Hold. destruct Hold as (row & Hrow & Hin).
    apply Hnew. apply in_map_iff. exists row. split; [| exact Hin].
    unfold pk in Hrow. cbn in Hrow. now injection Hrow.
Qed.

Lemma demo_ids_distinct :
  NoDup (map Cars.CAR_ID (CARS demo_db)) /\
  NoDup (map Teams.TEAM_ID (TEAMS demo_db)).
Proof.
  split; vm_compute; repeat constructor; simpl; intuition discriminate.
Qed.

Lemma race_results_primary_key_kept_witness :
  exists results c g',
    start_race no_faults "Riga Street Circuit" 100 1000 10000 "race-1"
      (idle demo_db) demo_rng = (RaceCompleted results, c, g') /\
    NoDup (map pk (RACE_RESULTS (committed c))).
Proof.
  destruct (start_race no_faults "Riga Street Circuit" 100 1000 10000
              "race-1" (idle demo_db) demo_rng) as [[o c] g'] eqn:Hrun.
  assert (Ho : exists results, o = RaceCompleted results).
  { vm_compute in Hrun. injection Hrun as <- _ _. eexists. reflexivity. }
  destruct Ho as [results ->].
  exists results, c, g'. split; [reflexivity |].
  destruct demo_ids_distinct as [Hcars Hteams].
  assert (Hpk : NoDup (map pk (RACE_RESULTS demo_db))) by constructor.
  assert (Hnew : ~ In "race-1"%string
                   (map RaceResults.RACE_UID (RACE_RESULTS demo_db)))
    by (intros []).
  exact (proj2 (race_results_primary_key_kept no_faults
                  "Riga Street Circuit" 100 1000 10000 "race-1" demo_db
                  demo_rng results c g' Hcars Hteams Hpk Hnew Hrun)).
Defined.

(** ** One balance update per team *)


(** ** Balances: relative deltas *)

Lemma Qsum_map_ext {A : Type} (f h : A -> Q) (l : list A) :
  (forall x, In x l -> f x == h x) -> Qsum (map f l) == Qsum (map h l).
Proof.
  induction l as [| x l IH]; intros H; cbn [map]; [reflexivity |].
  rewrite !Qsum_cons, IH, (H x (or_introl eq_refl)); [reflexivity |].
  intros y Hy. apply H. now right.
Qed.

Lemma Qsum_map_plus {A : Type} (f h : A -> Q) (l : list A) :
  Qsum (map (fun x => f x + h x) l) == Qsum (map f l) + Qsum (map h l).
Proof.
  induction l as [| x l IH]; cbn [map]; [reflexivity |].
  rewrite !Qsum_cons, IH. lra.
Qed.

Lemma Qsum_map_const {A : Type} (v : Q) (l : list A) :
  Qsum (map (fun _ => v) l) == inject_Z (Z.of_nat (List.length l)) * v.
Proof.
  induction l as [| x l IH]; cbn [map]; [reflexivity |].
  rewrite Qsum_cons, IH.
  replace (Z.of_nat (List.length (x :: l)))
    with (Z.of_nat (List.length l) + 1)%Z by (simpl; lia).
  rewrite inject_Z_plus. change (inject_Z 1) with 1. lra.
Qed.

Lemma delta_for_cons (m : Merged.row) (ms : list Merged.row) (t : Z) :
  delta_for (m :: ms) t ==
  (if (row_team_id m =? t)%Z then delta m else 0) + delta_for ms t.
Proof.
  unfold delta_for. cbn [filter].
  destruct (row_team_id m =? t)%Z; cbn [map].
  - apply Qsum_cons.
  - lra.
Qed.

(** A team row under any sequence of updates: the same team, its balance
    moved by the deltas addressed to it. *)
Lemma update_row_budget (ms : list Merged.row) (t : Teams.row) :
  same_team t (update_row ms t) /\
  Teams.BUDGET (update_row ms t) ==
  Teams.BUDGET t + delta_for ms (Teams.TEAM_ID t).
Proof.
  unfold update_row. revert t.
  induction ms as [| m ms IH]; intros t; cbn [fold_left].
  - unfold same_team, delta_for. cbn. change (Qsum []) with 0.
    repeat split. lra.
  - destruct (IH (add_budget (delta m) (row_team_id m) t))
      as [(Hid & Hname & Hmem) Hb].
    rewrite delta_for_cons. unfold same_team. unfold add_budget in *.
    rewrite (Z.eqb_sym (row_team_id m)).
    destruct (Teams.TEAM_ID t =? row_team_id m)%Z; cbn in *.
    + repeat split; auto. rewrite Hb. lra.
    + repeat split; auto. rewrite Hb. lra.
Qed.

Lemma Forall2_maps {A B C : Type} (R : B -> C -> Prop) (f : A -> B)
    (h : A -> C) (l : list A) :
  (forall x, R (f x) (h x)) -> Forall2 R (map f l) (map h l).
Proof. intros H. induction l; simpl; constructor; auto. Qed.

(** The balance updates of two settlements can be applied in either
    order: each team row ends as the same team with the same balance, its
    old balance plus the deltas both settlements address to it. *)
Theorem settlement_deltas_commute (ms1 ms2 : list Merged.row)
    (teams : list Teams.row) :
  Forall2
    (fun a b => same_team a b /\ Teams.BUDGET a == Teams.BUDGET b)
    (apply_deltas ms1 (apply_deltas ms2 teams))
    (apply_deltas ms2 (apply_deltas ms1 teams)) /\
  Forall2
    (fun t a =>
       same_team t a /\
       Teams.BUDGET a ==
       Teams.BUDGET t +
       delta_for ms1 (Teams.TEAM_ID t) + delta_for ms2 (Teams.TEAM_ID t))
    teams (apply_deltas ms1 (apply_deltas ms2 teams)).
Proof.
  rewrite !apply_deltas_rows, !map_map.
  assert (H : forall ma mb t,
            same_team t (update_row ma (update_row mb t)) /\
            Teams.BUDGET (update_row ma (update_row mb t)) ==
            Teams.BUDGET t + delta_for mb (Teams.TEAM_ID t) +
            delta_for ma (Teams.TEAM_ID t)).
  { intros ma mb t.
    destruct (update_row_budget mb t) as [(Hid & Hn & Hm) Hb].
    destruct (update_row_budget ma (update_row mb t))
      as [(Hid' & Hn' & Hm') Hb'].
    unfold same_team. rewrite Hid in Hb'.
    repeat split; try congruence. rewrite Hb', Hb. reflexivity. }
  split.
  - apply Forall2_maps. intros t.
    destruct (H ms1 ms2 t) as [(Hid & Hn & Hm) Hb].
    destruct (H ms2 ms1 t) as [(Hid' & Hn' & Hm') Hb'].
    unfold same_team. repeat split; try congruence.
    rewrite Hb, Hb'. lra.
  - apply Forall2_map_right. intros t.
    destruct (H ms1 ms2 t) as [Hs Hb]. split; [exact Hs |].
    rewrite Hb. lra.
Qed.

(** ** Balances: what a race moves in total *)

Lemma Qsum_pick (x : Z) (v : Q) (ks : list Z) :
  NoDup ks ->
  Qsum (map (fun k => if (x =? k)%Z then v else 0) ks) ==
  if in_dec Z.eq_dec x ks then v else 0.
Proof.
  induction 1 as [| k ks Hk Hnd IH]; cbn [map].
  - reflexivity.
  - rewrite Qsum_cons, IH.
    destruct (in_dec Z.eq_dec x (k :: ks)) as [Hin | Hout];
      destruct (in_dec Z.eq_dec x ks) as [Hin' | Hout'];
      destruct (x =? k)%Z eqn:E;
      try (apply Z.eqb_eq in E; subst); try (apply Z.eqb_neq in E);
      try lra; exfalso;
      solve [ apply Hk; assumption
            | apply Hout; simpl; auto
            | destruct Hin as [Heq | Hin2]; [apply E; congruence | auto] ].
Qed.

(** Summing over the teams what each team's results contribute sums over
    all results. *)
Lemma Qsum_by_team (f : Result -> Q) (ks : list Z) (rs : list Result) :
  NoDup ks ->
  (forall r, In r rs -> In (team_of r) ks) ->
  Qsum (map (fun k => Qsum (map f (filter (in_team k) rs))) ks) ==
  Qsum (map f rs).
Proof.
  intros Hnd. induction rs as [| r rs IH]; intros Hcov.
  - cbn [filter map]. change (Qsum []) with 0.
    rewrite (Qsum_map_const 0). lra.
  - cbn [map]. rewrite Qsum_cons, <- IH by (intros; apply Hcov; now right).
    rewrite (Qsum_map_ext _
               (fun k => (if (team_of r =? k)%Z then f r else 0) +
                         Qsum (map f (filter (in_team k) rs)))).
    + rewrite Qsum_map_plus, (Qsum_pick _ _ _ Hnd).
      destruct (in_dec Z.eq_dec (team_of r) ks) as [_ | Hout];
        [reflexivity |].
      exfalso. apply Hout, Hcov. now left.
    + intros k _. cbn [filter]. unfold in_team at 1.
      destruct (team_of r =? k)%Z; cbn [map]; [apply Qsum_cons | lra].
Qed.

Lemma delta_for_merged (fee : Q) (results : list Result) (k : Z) :
  Forall (fun r => exact_id (team_of r)) results ->
  delta_for (merged_frame fee results) k ==
  prize_total k results - inject_Z (entries_of k results) * fee.
Proof.
  intros Hex.
  assert (Hkeys : forall k', In k' (group_keys (map team_of results)) ->
                    exact_id k').
  { intros k' Hk'. apply group_keys_in, in_map_iff in Hk'.
    destruct Hk' as (r & <- & Hr). rewrite Forall_forall in Hex. auto. }
  rewrite merged_frame_rows.
  pose proof (group_keys_NoDup (map team_of results)) as Hnd.
  pose proof (group_keys_in k (map team_of results)) as Hin.
  set (keys := group_keys (map team_of results)) in *.
  assert (Hsum : delta_for (map (merged_row fee results) keys) k ==
                 Qsum (map (fun k' => if (k =? k')%Z
                                      then delta (merged_row fee results k)
                                      else 0) keys)).
  { clear Hnd Hin. induction keys as [| k' keys IH]; [reflexivity |].
    cbn [map]. rewrite delta_for_cons, Qsum_cons, IH
      by (intros; apply Hkeys; now right).
    unfold row_team_id. cbn [merged_row Merged.TEAM_ID].
    rewrite int_of_double_id by (apply Hkeys; now left).
    rewrite (Z.eqb_sym k').
    destruct (k =? k')%Z eqn:E; [| reflexivity].
    apply Z.eqb_eq in E. subst. reflexivity. }
  rewrite Hsum, (Qsum_pick _ _ _ Hnd).
  destruct (in_dec Z.eq_dec k keys) as [_ | Hout]; [reflexivity |].
  assert (Hnone : filter (in_team k) results = []).
  { destruct (filter (in_team k) results) as [| r rs] eqn:E; [reflexivity |].
    exfalso. apply Hout, Hin.
    assert (Hr : In r (filter (in_team k) results)) by (rewrite E; now left).
    apply filter_In in Hr. destruct Hr as [Hr Ht].
    apply in_map_iff. exists r. split; [| exact Hr].
    unfold in_team in Ht. now apply Z.eqb_eq in Ht. }
  unfold prize_total, entries_of. rewrite Hnone. cbn.
  change (Qsum []) with 0. change (inject_Z 0) with 0. lra.
Qed.

Lemma result_team_exists (distance prize_pool : Q) (db : Store) (g : Rng)
    (results : list Result) :
  allocate (fst (simulate distance (select_cars_join_teams db) g))
    prize_pool prize_split = Some results ->
  forall r, In r results ->
    In (team_of r) (map Teams.TEAM_ID (TEAMS db)).
Proof.
  intros Halloc r Hr.
  pose proof (results_entrants _ _ _ _ _ Halloc) as Hperm.
  assert (Hin : In (entrant (finisher (ranked r)))
                  (map frame_entrant (select_cars_join_teams db))).
  { eapply Permutation_in; [exact Hperm |].
    apply (in_map (fun r => entrant (finisher (ranked r)))), Hr. }
  apply in_map_iff in Hin. destruct Hin as (row & Hrow & Hin).
  apply in_race_frame in Hin.
  destruct Hin as (car & team & _ & Hteam & _ & ->).
  unfold team_of. injection Hrow as _ _ Ht _. rewrite <- Ht.
  apply in_map_iff. exists team. auto.
Qed.

(** With distinct team ids in TEAMS, and the id of every team of the
    race frame at most 2^53 in magnitude (so that line 258 addresses it),
    a completed race moves the sum of all balances by the prizes paid
    minus one fee per result: nothing else is created or lost. *)
Theorem settlement_moves_prizes_minus_fees (faults : nat -> bool)
    (track : string) (distance fee prize_pool : Q) (race_uid : string)
    (db : Store) (g : Rng) (results : list Result) (c : Conn) (g' : Rng) :
  NoDup (map Teams.TEAM_ID (TEAMS db)) ->
  exact_ids (select_cars_join_teams db) ->
  start_race faults track distance fee prize_pool race_uid (idle db) g =
    (RaceCompleted results, c, g') ->
  Qsum (map Teams.BUDGET (TEAMS (committed c))) ==
  Qsum (map Teams.BUDGET (TEAMS db)) + Qsum (map PRIZE_USD results) -
  inject_Z (Z.of_nat (List.length results)) * fee.
Proof.
  intros Hnd Hex H.
  pose proof (start_race_completed _ _ _ _ _ _ _ _ _ _ _ H) as Hc.
  apply completed_results in H. destruct H as (_ & Halloc & _).
  pose proof (result_team_exists _ _ _ _ _ Halloc) as Hcov.
  pose proof (results_exact_ids _ _ _ _ _ Halloc Hex) as Hids.
  subst c. cbn [committed TEAMS].
  rewrite apply_deltas_rows, map_map.
  rewrite (Qsum_map_ext _
             (fun t => Teams.BUDGET t +
                       (prize_total (Teams.TEAM_ID t) results -
                        inject_Z (entries_of (Teams.TEAM_ID t) results)
                        * fee))).
  2:{ intros t _.
      destruct (update_row_budget (merged_frame fee results) t) as [_ Hb].
      rewrite Hb, delta_for_merged by exact Hids. reflexivity. }
  rewrite Qsum_map_plus.
  rewrite <- (map_map Teams.TEAM_ID
                (fun k => prize_total k results -
                          inject_Z (entries_of k results) * fee)).
  rewrite (Qsum_map_ext _
             (fun k => Qsum (map PRIZE_USD (filter (in_team k) results)) +
                       Qsum (map (fun _ => - fee)
                               (filter (in_team k) results)))).
  2:{ intros k _. unfold prize_total, entries_of.
      rewrite (Qsum_map_const (- fee)). lra. }
  rewrite Qsum_map_plus, !(Qsum_by_team _ _ _ Hnd Hcov), Qsum_map_const.
  lra.
Qed.

Lemma settlement_moves_prizes_minus_fees_witness :
  exists results c g',
    start_race no_faults "Riga Street Circuit" 100 1000 10000 "race-1"
      (idle demo_db) demo_rng = (RaceCompleted results, c, g') /\
    Qsum (map Teams.BUDGET (TEAMS (committed c))) ==
    Qsum (map Teams.BUDGET (TEAMS demo_db)) + Qsum (map PRIZE_USD results) -
    inject_Z (Z.of_nat (List.length results)) * 1000.
Proof.
  destruct (start_race no_faults "Riga Street Circuit" 100 1000 10000
              "race-1" (idle demo_db) demo_rng) as [[o c] g'] eqn:Hrun.
  assert (Ho : exists results, o = RaceCompleted results).
  { vm_compute in Hrun. injection Hrun as <- _ _. eexists. reflexivity. }
  destruct Ho as [results ->].
  exists results, c, g'. split; [reflexivity |].
  exact (settlement_moves_prizes_minus_fees no_faults "Riga Street Circuit"
           100 1000 10000 "race-1" demo_db demo_rng results c g'
           (proj2 demo_ids_distinct) demo_ids_exact Hrun).
Defined.

(** ** What no press of the button touches *)

Lemma keeps_refl (db : Store) : keeps db db.
Proof.
  unfold keeps. repeat split.
  - induction (TEAMS db); constructor; unfold same_team; auto.
  - exists []. now rewrite app_nil_r.
  - exists []. now rewrite app_nil_r.
Qed.

Lemma apply_write_keeps (db s : Store) (st : Stmt) :
  keeps db s -> keeps db (apply_write st s).
Proof.
  intros (Hc & Ht & [nr Hr] & [nrr Hrr]).
  destruct st; cbn [apply_write]; unfold keeps;
    cbn [CARS TEAMS RACES RACE_RESULTS];
    try (repeat split; eauto; fail).
  - repeat split; eauto. exists (nr ++ [r]). now rewrite Hr, app_assoc.
  - repeat split; eauto. exists (nrr ++ [r]). now rewrite Hrr, app_assoc.
  - repeat split; eauto.
    clear - Ht. induction Ht as [| a b l l' Hab Hl IH]; cbn [map];
      constructor; [| exact IH].
    unfold same_team, add_budget in *.
    destruct (Teams.TEAM_ID b =? team_id)%Z; cbn; intuition congruence.
Qed.

Lemma exec_keeps (db : Store) (st : Stmt) (c : Conn) :
  session_keeps db c -> session_keeps db (exec st c).
Proof.
  destruct c as [cm [w |] n]; unfold session_keeps, visible, exec;
    cbn [committed txn]; intros [Hc Hv];
    destruct st; cbn [committed txn]; auto;
    split; auto; now apply apply_write_keeps.
Qed.

Lemma run_keeps (db : Store) (faults : nat -> bool) (st : Stmt) (c : Conn) :
  session_keeps db c -> session_keeps db (snd (run faults st c)).
Proof.
  intros H. unfold run. destruct (faults (issued c)); cbn [snd].
  - exact H.
  - apply (exec_keeps db st) in H. exact H.
Qed.

Lemma for_each_keeps (db : Store) (faults : nat -> bool) (l : list Stmt)
    (c : Conn) :
  session_keeps db c ->
  session_keeps db (snd (for_each l (run faults) c)).
Proof.
  revert c. induction l as [| st l IH]; intros c H; cbn [for_each].
  - exact H.
  - unfold bind. pose proof (run_keeps db faults st c H) as H1.
    destruct (run faults st c) as [[e | u] c1]; cbn [snd] in *;
      [exact H1 | now apply IH].
Qed.

(** However a press of the button ends (no cars, a completed race, a
    failure that was rolled back or one that was not), CARS is unchanged,
    every TEAMS row is still the same team in the same place (only
    balances can differ), and RACES and RACE_RESULTS still begin with the
    rows they had: history is never rewritten.  This holds for what is
    committed and for what the session reads. *)
Theorem start_race_keeps_cars_teams_and_history (faults : nat -> bool)
    (track : string) (distance fee prize_pool : Q) (race_uid : string)
    (db : Store) (g : Rng) :
  session_keeps db
    (snd (fst (start_race faults track distance fee prize_pool race_uid
                 (idle db) g))).
Proof.
  assert (H0 : session_keeps db (idle db)).
  { split; apply keeps_refl. }
  unfold start_race. change (visible (idle db)) with db.
  destruct (select_cars_join_teams db) as [| row cars]; [exact H0 |].
  destruct (simulate distance (row :: cars) g) as [ranking g1].
  destruct (allocate ranking prize_pool prize_split) as [results |];
    [| exact H0].
  rewrite settle_as_script.
  pose proof (for_each_keeps db faults
                (script race_uid track distance fee prize_pool results)
                (idle db) H0) as H1.
  destruct (for_each _ (run faults) (idle db)) as [[e | u] c1];
    cbn [snd] in H1; [| exact H1].
  pose proof (run_keeps db faults ROLLBACK c1 H1) as H2.
  destruct (run faults ROLLBACK c1) as [[e' | u'] c2]; exact H2.
Qed.

(** * The other tabs *)

(** ** Dicts and labels *)

Lemma dict_get_set {V : Type} (k k' : string) (v : V)
    (d : list (string * V)) :
  dict_get (dict_set k v d) k' =
  if String.eqb k k' then Some v else dict_get d k'.
Proof.
  induction d as [| [k0 v0] d IH]; cbn [dict_set dict_get].
  - reflexivity.
  - destruct (String.eqb k0 k) eqn:E0; cbn [dict_get].
    + apply String.eqb_eq in E0. subst k0.
      now destruct (String.eqb k k').
    + rewrite IH. destruct (String.eqb k0 k') eqn:E1; [| reflexivity].
      destruct (String.eqb k k') eqn:E2; [| reflexivity].
      apply String.eqb_eq in E1, E2. subst.
      rewrite String.eqb_refl in E0. discriminate.
Qed.

(** A key whose items all carry the same value maps to that value. *)
Lemma dict_of_get {V : Type} (items : list (string * V)) (k : string)
    (v0 : V) :
  In (k, v0) items ->
  (forall v, In (k, v) items -> v = v0) ->
  dict_get (dict_of items) k = Some v0.
Proof.
  unfold dict_of. intros Hin Huniq.
  assert (H : forall d,
            In (k, v0) items \/ dict_get d k = Some v0 ->
            dict_get
              (fold_left (fun d kv => dict_set (fst kv) (snd kv) d) items d)
              k = Some v0).
  { clear Hin. induction items as [| [k1 v1] items IH]; intros d Hd.
    - destruct Hd as [[] | Hd]. exact Hd.
    - cbn [fold_left fst snd]. apply IH.
      + intros v Hv. apply Huniq. now right.
      + rewrite dict_get_set.
        destruct Hd as [[Heq | Hin] | Hd].
        * injection Heq as -> ->. right. now rewrite String.eqb_refl.
        * now left.
        * right. destruct (String.eqb k1 k) eqn:E; [| exact Hd].
          apply String.eqb_eq in E. subst k1. f_equal.
          apply Huniq. now left. }
  apply H. now left.
Qed.

Lemma uint_free_of_bracket (d : Decimal.uint) :
  free_of "]"%char (NilEmpty.string_of_uint d).
Proof.
  induction d; cbn [NilEmpty.string_of_uint free_of]; auto;
    (split; [discriminate | assumption]).
Qed.

Lemma str_free_of_bracket (i : Z) : free_of "]"%char (str i).
Proof.
  unfold str, NilZero.string_of_int, NilZero.string_of_uint.
  destruct (Z.to_int i) as [d | d]; destruct d;
    cbn [free_of]; repeat split; try discriminate;
    apply (uint_free_of_bracket d).
Qed.

Lemma str_injective (i j : Z) : str i = str j -> i = j.
Proof.
  unfold str. intros H.
  assert (Hnn : forall z, Z.to_int z <> Decimal.Pos Decimal.Nil /\
                          Z.to_int z <> Decimal.Neg Decimal.Nil).
  { intros [| p | p]; cbn [Z.to_int]; split; try discriminate;
      intros Hp; injection Hp as Hp;
      now apply (DecimalPos.Unsigned.to_uint_nonnil p). }
  destruct (Hnn i) as [Hi1 Hi2]. destruct (Hnn j) as [Hj1 Hj2].
  apply DecimalZ.to_int_inj.
  pose proof (NilZero.isi _ Hi1 Hi2) as Ei.
  pose proof (NilZero.isi _ Hj1 Hj2) as Ej.
  rewrite H in Ei. congruence.
Qed.

Lemma bracket_splits (s1 s2 r1 r2 : string) :
  free_of "]"%char s1 -> free_of "]"%char s2 ->
  (s1 ++ String "]"%char r1)%string = (s2 ++ String "]"%char r2)%string ->
  s1 = s2 /\ r1 = r2.
Proof.
  revert s2. induction s1 as [| a s1 IH]; intros [| b s2] H1 H2 H;
    cbn [String.append free_of] in *.
  - injection H as ->. auto.
  - injection H as Hb _. destruct H2 as [Hne _]. congruence.
  - injection H as Ha _. destruct H1 as [Hne _]. congruence.
  - injection H as -> H. destruct H1 as [_ H1]. destruct H2 as [_ H2].
    destruct (IH s2 H1 H2 H) as [-> ->]. auto.
Qed.

Lemma car_label_injective (a b : Z) (na nb : string) :
  car_label a na = car_label b nb -> a = b /\ na = nb.
Proof.
  unfold car_label. cbn [String.append]. intros H. injection H as H.
  apply bracket_splits in H; try apply str_free_of_bracket.
  destruct H as [Hs Hn]. apply str_injective in Hs. injection Hn as ->.
  auto.
Qed.

Lemma insert_by_car_id_desc_perm (r : CarsView.row)
    (l : list CarsView.row) :
  Permutation (r :: l) (insert_by_car_id_desc r l).
Proof.
  induction l as [| x l IH]; simpl.
  - apply Permutation_refl.
  - destruct (_ <? _)%Z.
    + eapply perm_trans; [apply perm_swap |]. now apply perm_skip.
    + apply Permutation_refl.
Qed.

Lemma get_cars_df_perm (b : bool) (db : Store) :
  Permutation (join_cars_teams b db) (get_cars_df b db).
Proof.
  unfold get_cars_df.
  induction (join_cars_teams b db) as [| r l IH]; simpl.
  - apply perm_nil.
  - eapply perm_trans; [| apply insert_by_car_id_desc_perm].
    now apply perm_skip.
Qed.

Lemma in_join_cars_teams (b : bool) (db : Store) (row : CarsView.row) :
  In row (join_cars_teams b db) <->
  (exists c t, In c (CARS db) /\ In t (TEAMS db) /\
               Cars.TEAM_ID c = Some (Teams.TEAM_ID t) /\
               row = view_row c (Some t)) \/
  (b = true /\
   exists c, In c (CARS db) /\ teamless db c /\ row = view_row c None).
Proof.
  unfold join_cars_teams. rewrite in_flat_map.
  assert (Hm : forall c t, In t (filter (team_matches c) (TEAMS db)) <->
                           In t (TEAMS db) /\
                           Cars.TEAM_ID c = Some (Teams.TEAM_ID t)).
  { intros c t. rewrite filter_In. unfold team_matches.
    destruct (Cars.TEAM_ID c) as [i |].
    - rewrite Z.eqb_eq. split; intros [H1 H2]; split; auto; congruence.
    - split; intros [H1 H2]; discriminate. }
  split.
  - intros (c & Hc & Hrow).
    destruct (filter (team_matches c) (TEAMS db)) as [| t0 ts] eqn:E.
    + destruct b; [| destruct Hrow].
      destruct Hrow as [<- | []]. right. split; [reflexivity |].
      exists c. repeat split; auto.
      intros t Ht Hid.
      assert (Hin : In t (filter (team_matches c) (TEAMS db)))
        by (apply Hm; auto).
      rewrite E in Hin. destruct Hin.
    + apply in_map_iff in Hrow. destruct Hrow as (t & <- & Ht).
      rewrite <- E in Ht. apply Hm in Ht. destruct Ht as [Ht Hid].
      left. exists c, t. auto.
  - intros [(c & t & Hc & Ht & Hid & ->) | (-> & c & Hc & Hnone & ->)];
      exists c; (split; [exact Hc |]).
    + assert (Hin : In t (filter (team_matches c) (TEAMS db)))
        by (apply Hm; auto).
      destruct (filter (team_matches c) (TEAMS db)) as [| t0 ts];
        [destruct Hin |].
      apply in_map_iff. exists t. auto.
    + destruct (filter (team_matches c) (TEAMS db)) as [| t0 ts] eqn:E;
        [now left |].
      exfalso.
      assert (Hin : In t0 (filter (team_matches c) (TEAMS db)))
        by (rewrite E; now left).
      apply Hm in Hin. destruct Hin as [Ht Hid]. exact (Hnone t0 Ht Hid).
Qed.

Lemma every_car_is_listed (db : Store) (c : Cars.row) :
  In c (CARS db) ->
  exists row, In row (get_cars_df true db) /\
              CarsView.CAR_ID row = Cars.CAR_ID c /\
              CarsView.CAR_NAME row = Cars.CAR_NAME c.
Proof.
  intros Hc.
  destruct (filter (team_matches c) (TEAMS db)) as [| t ts] eqn:E.
  - exists (view_row c None). split; [| auto].
    eapply Permutation_in; [apply get_cars_df_perm |].
    unfold join_cars_teams. apply in_flat_map. exists c.
    rewrite E. split; [exact Hc | now left].
  - exists (view_row c (Some t)). split; [| auto].
    eapply Permutation_in; [apply get_cars_df_perm |].
    unfold join_cars_teams. apply in_flat_map. exists c.
    rewrite E. split; [exact Hc | now left].
Qed.

Lemma car_map_get (db : Store) (c : Cars.row) :
  In c (CARS db) ->
  dict_get (car_map db) (car_label (Cars.CAR_ID c) (Cars.CAR_NAME c)) =
  Some (Cars.CAR_ID c).
Proof.
  intros Hc.
  destruct (every_car_is_listed db c Hc) as (row & Hrow & Hid & Hname).
  unfold car_map. apply dict_of_get.
  - apply in_map_iff. exists row. split; [| exact Hrow].
    now rewrite Hid, Hname.
  - intros v Hv. apply in_map_iff in Hv. destruct Hv as (row' & Heq & _).
    pose proof (f_equal fst Heq) as Hl. pose proof (f_equal snd Heq) as Hv.
    cbn [fst snd] in Hl, Hv. subst v.
    apply car_label_injective in Hl. now destruct Hl.
Qed.

(** The label of the Assign tab tells cars apart: two labels are equal
    only for the same car id and the same car name, and in the dict of
    line 167 the label of every car of CARS maps to the id of that car;
    so every car can be selected and the car selected is the one
    updated. *)
Theorem car_labels_identify_cars :
  (forall a b na nb, car_label a na = car_label b nb -> a = b /\ na = nb) /\
  (forall db c, In c (CARS db) ->
     dict_get (car_map db) (car_label (Cars.CAR_ID c) (Cars.CAR_NAME c)) =
     Some (Cars.CAR_ID c)).
Proof.
  split; [apply car_label_injective | apply car_map_get].
Qed.

(** ** What the car list shows *)

Lemma insert_by_car_id_desc_sorted (r : CarsView.row)
    (l : list CarsView.row) :
  StronglySorted (fun x y => (CarsView.CAR_ID y <= CarsView.CAR_ID x)%Z) l ->
  StronglySorted (fun x y => (CarsView.CAR_ID y <= CarsView.CAR_ID x)%Z)
    (insert_by_car_id_desc r l).
Proof.
  induction 1 as [| x l Hs IH Hx]; simpl.
  - constructor; constructor.
  - destruct (CarsView.CAR_ID r <? CarsView.CAR_ID x)%Z eqn:E.
    + apply Z.ltb_lt in E. constructor; [exact IH |].
      eapply Permutation_Forall; [apply insert_by_car_id_desc_perm |].
      constructor; [lia | exact Hx].
    + apply Z.ltb_ge in E. constructor; [now constructor |].
      constructor; [exact E |].
      eapply Forall_impl; [| exact Hx]. simpl. intros y Hy. lia.
Qed.

Lemma join_keys (db : Store) :
  map view_key (join_cars_teams false db) =
  map frame_key (select_cars_join_teams db).
Proof.
  unfold join_cars_teams, select_cars_join_teams.
  induction (CARS db) as [| c cars IH]; [reflexivity |].
  cbn [flat_map]. rewrite !map_app, IH. f_equal.
  assert (Hsame :
            match filter (team_matches c) (TEAMS db) with
            | [] => []
            | ts => map (fun t => view_row c (Some t)) ts
            end =
            map (fun t => view_row c (Some t))
              (filter (team_matches c) (TEAMS db))).
  { now destruct (filter (team_matches c) (TEAMS db)). }
  rewrite Hsame, !map_map. apply map_ext_in.
  intros t Ht. apply filter_In in Ht. destruct Ht as [_ Hm].
  unfold team_matches in Hm. unfold view_key, frame_key, view_row, join_row.
  cbn. destruct (Cars.TEAM_ID c) as [i |]; [| discriminate].
  apply Z.eqb_eq in Hm. now subst.
Qed.

(** [get_cars_df] lists its rows by descending car id.  With the
    unassigned included it has, for every car, one row per team row that
    matches the car's TEAM_ID, and one row without team name for a car
    that matches none; without them it has only the former, which are the
    rows of the race frame: the Cars tab's joined list and the race see
    the same cars with the same teams. *)
Theorem get_cars_df_lists_cars_and_race_frame (b : bool) (db : Store) :
  StronglySorted (fun x y => (CarsView.CAR_ID y <= CarsView.CAR_ID x)%Z)
    (get_cars_df b db) /\
  (forall row, In row (get_cars_df b db) <->
     (exists c t, In c (CARS db) /\ In t (TEAMS db) /\
                  Cars.TEAM_ID c = Some (Teams.TEAM_ID t) /\
                  row = view_row c (Some t)) \/
     (b = true /\
      exists c, In c (CARS db) /\ teamless db c /\ row = view_row c None)) /\
  Permutation (map view_key (get_cars_df false db))
    (map frame_key (select_cars_join_teams db)).
Proof.
  split; [| split].
  - unfold get_cars_df.
    induction (join_cars_teams b db) as [| r l IH]; simpl;
      [constructor | now apply insert_by_car_id_desc_sorted].
  - intros row. rewrite <- in_join_cars_teams.
    split; apply Permutation_in;
      [apply Permutation_sym |]; apply get_cars_df_perm.
  - rewrite <- join_keys. apply Permutation_map, Permutation_sym,
      get_cars_df_perm.
Qed.

(** ** Assigning a car *)

Lemma insert_by_name_perm (t : Teams.row) (l : list Teams.row) :
  Permutation (t :: l) (insert_by_name t l).
Proof.
  induction l as [| x l IH]; simpl.
  - apply Permutation_refl.
  - destruct (String.ltb _ _).
    + eapply perm_trans; [apply perm_swap |]. now apply perm_skip.
    + apply Permutation_refl.
Qed.

Lemma get_teams_df_perm (db : Store) :
  Permutation (TEAMS db) (get_teams_df db).
Proof.
  unfold get_teams_df. induction (TEAMS db) as [| t l IH]; simpl.
  - apply perm_nil.
  - eapply perm_trans; [| apply insert_by_name_perm]. now apply perm_skip.
Qed.

Lemma NoDup_map_same {A B : Type} (f : A -> B) (l : list A) (a b : A) :
  NoDup (map f l) -> In a l -> In b l -> f a = f b -> a = b.
Proof.
  induction l as [| x l IH]; intros Hnd Ha Hb Hf; [destruct Ha |].
  cbn [map] in Hnd. inversion Hnd as [| ? ? Hnot Hnd']. subst.
  destruct Ha as [-> | Ha], Hb as [-> | Hb]; auto.
  - exfalso. apply Hnot. rewrite Hf. now apply in_map.
  - exfalso. apply Hnot. rewrite <- Hf. now apply in_map.
Qed.

Lemma team_map_get (db : Store) (t : Teams.row) :
  NoDup (map Teams.TEAM_NAME (TEAMS db)) -> In t (TEAMS db) ->
  dict_get (team_map db) (Teams.TEAM_NAME t) = Some (Teams.TEAM_ID t).
Proof.
  intros Hnd Ht. unfold team_map. apply dict_of_get.
  - apply in_map_iff. exists t. split; [reflexivity |].
    eapply Permutation_in; [apply get_teams_df_perm | exact Ht].
  - intros v Hv. apply in_map_iff in Hv. destruct Hv as (t' & Heq & Ht').
    pose proof (f_equal fst Heq) as Hn. pose proof (f_equal snd Heq) as Hv.
    cbn [fst snd] in Hn, Hv. subst v.
    apply (Permutation_in _ (Permutation_sym (get_teams_df_perm db))) in Ht'.
    now rewrite (NoDup_map_same Teams.TEAM_NAME _ t' t Hnd Ht' Ht Hn).
Qed.

Lemma set_team_other (team_id car_id : Z) (c : Cars.row) :
  Cars.CAR_ID c <> car_id -> set_team team_id car_id c = c.
Proof.
  intros H. unfold set_team. apply Z.eqb_neq in H. now rewrite H.
Qed.

Lemma set_team_car_id (team_id car_id : Z) (c : Cars.row) :
  Cars.CAR_ID (set_team team_id car_id c) = Cars.CAR_ID c /\
  Cars.CAR_NAME (set_team team_id car_id c) = Cars.CAR_NAME c.
Proof. unfold set_team. now destruct (_ =? _)%Z. Qed.

(** With distinct team names, choosing the label of a car of CARS and the
    name of a team of TEAMS and pressing the button updates the store at
    once, unless the statement raises and the store stays as it was.  The
    update sets the TEAM_ID of the cars with the chosen car's id, leaves
    every other car and the other three tables as they were, and makes
    the chosen car a row of the race frame for the chosen team, without
    changing the rows of the other cars. *)
Theorem assign_makes_the_car_race (faults : nat -> bool) (db : Store)
    (x : Cars.row) (t : Teams.row) :
  NoDup (map Teams.TEAM_NAME (TEAMS db)) ->
  In x (CARS db) -> In t (TEAMS db) ->
  let db' := update_cars (Teams.TEAM_ID t) (Cars.CAR_ID x) db in
  assign_tab faults (car_label (Cars.CAR_ID x) (Cars.CAR_NAME x))
    (Teams.TEAM_NAME t) (idle db) =
  (if faults 0%nat
   then (FailedToAssign (StatementFailed 0), mkConn db None 1)
   else (AssignmentUpdated, mkConn db' None 1)) /\
  TEAMS db' = TEAMS db /\ RACES db' = RACES db /\
  RACE_RESULTS db' = RACE_RESULTS db /\
  (forall c, In c (CARS db) -> Cars.CAR_ID c <> Cars.CAR_ID x ->
             In c (CARS db')) /\
  In (join_row x t) (select_cars_join_teams db') /\
  (forall row, CarsDf.CAR_ID row <> Cars.CAR_ID x ->
     (In row (select_cars_join_teams db') <->
      In row (select_cars_join_teams db))).
Proof.
  intros Hnd Hx Ht. cbv zeta.
  set (db' := update_cars (Teams.TEAM_ID t) (Cars.CAR_ID x) db).
  split; [| repeat split; try reflexivity].
  - unfold assign_tab. change (visible (idle db)) with db.
    destruct (every_car_is_listed db x Hx) as (row & Hrow & _).
    destruct (get_cars_df true db) as [| r0 rs] eqn:Ecars;
      [destruct Hrow |].
    pose proof (Permutation_in _ (get_teams_df_perm db) Ht) as Ht'.
    destruct (get_teams_df db) as [| t0 ts] eqn:Eteams; [destruct Ht' |].
    rewrite (team_map_get db t Hnd Ht).
    rewrite (car_map_get db x Hx).
    unfold run_update_cars. cbn [idle issued committed txn].
    now destruct (faults 0%nat).
  - intros c Hc Hne. unfold db', update_cars. cbn [CARS].
    apply in_map_iff. exists c. split; [| exact Hc].
    now apply set_team_other.
  - apply in_race_frame.
    exists (set_team (Teams.TEAM_ID t) (Cars.CAR_ID x) x), t.
    unfold db', update_cars. cbn [CARS TEAMS].
    repeat split; [now apply in_map | exact Ht | |];
      unfold set_team; rewrite Z.eqb_refl; reflexivity.
  - intros Hrow. apply in_race_frame in Hrow.
    destruct Hrow as (c' & t' & Hc' & Ht'' & Hid & ->).
    unfold db', update_cars in Hc'. cbn [CARS TEAMS] in Hc', Ht''.
    apply in_map_iff in Hc'. destruct Hc' as (c & <- & Hc).
    assert (Hne : Cars.CAR_ID c <> Cars.CAR_ID x).
    { intros Heq. apply H.
      unfold join_row. cbn [CarsDf.CAR_ID].
      now rewrite (proj1 (set_team_car_id _ _ c)). }
    rewrite (set_team_other _ _ c Hne) in *.
    apply in_race_frame. exists c, t'. auto.
  - intros Hrow. apply in_race_frame in Hrow.
    destruct Hrow as (c & t' & Hc & Ht'' & Hid & ->).
    assert (Hne : Cars.CAR_ID c <> Cars.CAR_ID x) by exact H.
    apply in_race_frame. exists c, t'.
    unfold db', update_cars. cbn [CARS TEAMS].
    repeat split; auto.
    apply in_map_iff. exists c. split; [| exact Hc].
    now apply set_team_other.
Qed.

Lemma assign_makes_the_car_race_witness :
  assign_tab no_faults "[#4] Lightning X" "Idle" (idle demo_db) =
  (AssignmentUpdated, mkConn (update_cars 4 4 demo_db) None 1) /\
  In (join_row (demo_car 4 320 None) (Teams.mk 4 "Idle" "" 500))
    (select_cars_join_teams (update_cars 4 4 demo_db)).
Proof.
  assert (Hnd : NoDup (map Teams.TEAM_NAME (TEAMS demo_db))).
  { vm_compute. repeat constructor; simpl; intuition discriminate. }
  assert (Hx : In (demo_car 4 320 None) (CARS demo_db)).
  { simpl. auto. }
  assert (Ht : In (Teams.mk 4 "Idle" "" 500) (TEAMS demo_db)).
  { simpl. auto. }
  destruct (assign_makes_the_car_race no_faults demo_db
              (demo_car 4 320 None) (Teams.mk 4 "Idle" "" 500) Hnd Hx Ht)
    as (Hrun & _ & _ & _ & _ & Hin & _).
  split; [exact Hrun | exact Hin].
Defined.

(** ** The History tab *)

Lemma flat_map_nil {A B : Type} (f : A -> list B) (l : list A) :
  (forall x, In x l -> f x = []) -> flat_map f l = [].
Proof.
  induction l as [| x l IH]; intros H; cbn [flat_map]; [reflexivity |].
  rewrite (H x (or_introl eq_refl)), IH; [reflexivity |].
  intros y Hy. apply H. now right.
Qed.

Lemma flat_map_over_map {A B C : Type} (f : B -> list C) (h : A -> B)
    (l : list A) :
  flat_map f (map h l) = flat_map (fun x => f (h x)) l.
Proof.
  induction l as [| x l IH]; cbn [map flat_map]; [reflexivity |].
  now rewrite IH.
Qed.

(** Among rows with distinct keys, the rows of key [key x] are [x]
    alone. *)
Lemma flat_map_unique {A B : Type} (key : A -> Z) (F : A -> list B)
    (l : list A) (x : A) :
  NoDup (map key l) -> In x l ->
  flat_map (fun y => if (key y =? key x)%Z then F y else []) l = F x.
Proof.
  induction l as [| y l IH]; intros Hnd Hx; [destruct Hx |].
  cbn [map] in Hnd. inversion Hnd as [| ? ? Hnot Hnd']. subst.
  cbn [flat_map]. destruct Hx as [-> | Hx].
  - rewrite Z.eqb_refl, flat_map_nil; [apply app_nil_r |].
    intros z Hz. destruct (key z =? key x)%Z eqn:E; [| reflexivity].
    apply Z.eqb_eq in E. exfalso. apply Hnot. rewrite <- E.
    now apply in_map.
  - destruct (key y =? key x)%Z eqn:E.
    + apply Z.eqb_eq in E. exfalso. apply Hnot. rewrite E.
      now apply in_map.
    + now apply IH.
Qed.

Lemma join_race_results_cars_teams (teams : list Teams.row)
    (cars : list Cars.row) (races races' : list Races.row)
    (rrs : list RaceResults.row) (ut : Teams.row -> Teams.row)
    (uc : Cars.row -> Cars.row) (sel : string) :
  (forall t, Teams.TEAM_ID (ut t) = Teams.TEAM_ID t /\
             Teams.TEAM_NAME (ut t) = Teams.TEAM_NAME t) ->
  (forall c, Cars.CAR_ID (uc c) = Cars.CAR_ID c /\
             Cars.CAR_NAME (uc c) = Cars.CAR_NAME c) ->
  join_race_results (mkStore (map ut teams) (map uc cars) races' rrs) sel =
  join_race_results (mkStore teams cars races rrs) sel.
Proof.
  intros Hut Huc. unfold join_race_results. cbn [TEAMS CARS RACE_RESULTS].
  apply flat_map_ext. intros rr. destruct (String.eqb _ sel); [| reflexivity].
  rewrite flat_map_over_map. apply flat_map_ext. intros c.
  destruct (Huc c) as [-> Hcn].
  destruct (_ =? _)%Z; [| reflexivity].
  rewrite flat_map_over_map. apply flat_map_ext. intros t.
  destruct (Hut t) as [-> Htn].
  destruct (_ =? _)%Z; [| reflexivity].
  unfold history_row. now rewrite Hcn, Htn.
Qed.

Lemma update_row_names (ms : list Merged.row) (t : Teams.row) :
  Teams.TEAM_ID (update_row ms t) = Teams.TEAM_ID t /\
  Teams.TEAM_NAME (update_row ms t) = Teams.TEAM_NAME t.
Proof.
  destruct (update_row_budget ms t) as [(H1 & H2 & _) _]. auto.
Qed.

Lemma join_race_results_app (teams : list Teams.row) (cars : list Cars.row)
    (races : list Races.row) (old new : list RaceResults.row)
    (sel : string) :
  join_race_results (mkStore teams cars races (old ++ new)) sel =
  join_race_results (mkStore teams cars races old) sel ++
  join_race_results (mkStore teams cars races new) sel.
Proof.
  unfold join_race_results. cbn [TEAMS CARS RACE_RESULTS].
  apply flat_map_app.
Qed.

Lemma join_race_results_other (teams : list Teams.row)
    (cars : list Cars.row) (races : list Races.row)
    (rrs : list RaceResults.row) (sel : string) :
  ~ In sel (map RaceResults.RACE_UID rrs) ->
  join_race_results (mkStore teams cars races rrs) sel = [].
Proof.
  intros Hnot. unfold join_race_results. cbn [TEAMS CARS RACE_RESULTS].
  apply flat_map_nil. intros rr Hrr.
  destruct (String.eqb (RaceResults.RACE_UID rr) sel) eqn:E; [| reflexivity].
  apply String.eqb_eq in E. exfalso. apply Hnot. rewrite <- E.
  now apply in_map.
Qed.

Lemma result_origin (distance prize_pool : Q) (db : Store) (g : Rng)
    (results : list Result) :
  allocate (fst (simulate distance (select_cars_join_teams db) g))
    prize_pool prize_split = Some results ->
  forall r, In r results ->
    exists car team,
      In car (CARS db) /\ In team (TEAMS db) /\
      entrant (finisher (ranked r)) =
      (Cars.CAR_ID car, Cars.CAR_NAME car,
       Teams.TEAM_ID team, Teams.TEAM_NAME team).
Proof.
  intros Halloc r Hr.
  pose proof (results_entrants _ _ _ _ _ Halloc) as Hperm.
  assert (Hin : In (entrant (finisher (ranked r)))
                  (map frame_entrant (select_cars_join_teams db))).
  { eapply Permutation_in; [exact Hperm |].
    apply (in_map (fun r => entrant (finisher (ranked r)))), Hr. }
  apply in_map_iff in Hin. destruct Hin as (row & Hrow & Hin).
  apply in_race_frame in Hin.
  destruct Hin as (car & team & Hcar & Hteam & _ & ->).
  exists car, team. repeat split; auto.
Qed.

Lemma sorted_map {A B : Type} (R : B -> B -> Prop) (f : A -> B)
    (l : list A) :
  StronglySorted (fun a b => R (f a) (f b)) l -> StronglySorted R (map f l).
Proof.
  induction 1 as [| x l Hs IH Hx]; cbn [map]; constructor; [exact IH |].
  rewrite Forall_map. exact Hx.
Qed.

Lemma sorted_weaken {A : Type} (R R' : A -> A -> Prop) (l : list A) :
  (forall a b, R a b -> R' a b) ->
  StronglySorted R l -> StronglySorted R' l.
Proof.
  intros HR. induction 1 as [| x l Hs IH Hx]; constructor; [exact IH |].
  eapply Forall_impl; [| exact Hx]. intros b. apply HR.
Qed.

Lemma insert_by_position_sorted (l : list History.row) :
  StronglySorted (fun a b => (History.POSITION a <= History.POSITION b)%Z) l ->
  fold_right insert_by_position [] l = l.
Proof.
  induction 1 as [| x l Hs IH Hx]; cbn [fold_right]; [reflexivity |].
  rewrite IH. destruct l as [| y l]; [reflexivity |].
  cbn [insert_by_position]. inversion Hx as [| ? ? Hxy _]. subst.
  apply Z.ltb_ge in Hxy. now rewrite Hxy.
Qed.

Lemma shown_in_order (distance prize_pool : Q) (cars : list CarsDf.row)
    (g : Rng) (results : list Result) :
  allocate (fst (simulate distance cars g)) prize_pool prize_split =
    Some results ->
  fold_right insert_by_position [] (map shown results) = map shown results.
Proof.
  intros H. apply insert_by_position_sorted, sorted_map.
  rewrite simulate_ranking in H.
  change (number ?l 1) with (assign_positions l) in H.
  apply allocate_ranking in H. subst results.
  apply (sorted_map
           (fun a b => (History.POSITION (shown a) <=
                        History.POSITION (shown b))%Z)).
  eapply sorted_weaken; [| apply number_sorted, sort_by_time_sorted].
  intros a b [Hlt _]. cbn. lia.
Qed.

Lemma join_one (teams : list Teams.row) (cars : list Cars.row)
    (rr : RaceResults.row) (car : Cars.row) (team : Teams.row) :
  NoDup (map Cars.CAR_ID cars) -> NoDup (map Teams.TEAM_ID teams) ->
  In car cars -> In team teams ->
  RaceResults.CAR_ID rr = Cars.CAR_ID car ->
  RaceResults.TEAM_ID rr = Teams.TEAM_ID team ->
  flat_map
    (fun c =>
       if (Cars.CAR_ID c =? RaceResults.CAR_ID rr)%Z
       then flat_map
              (fun t =>
                 if (Teams.TEAM_ID t =? RaceResults.TEAM_ID rr)%Z
                 then [history_row rr c t]
                 else [])
              teams
       else [])
    cars =
  [history_row rr car team].
Proof.
  intros Hcars Hteams Hcar Hteam -> ->.
  rewrite (flat_map_unique Cars.CAR_ID
             (fun c =>
                flat_map
                  (fun t =>
                     if (Teams.TEAM_ID t =? Teams.TEAM_ID team)%Z
                     then [history_row rr c t]
                     else [])
                  teams)
             cars car Hcars Hcar).
  apply (flat_map_unique Teams.TEAM_ID (fun t => [history_row rr car t])
           teams team Hteams Hteam).
Qed.

Lemma completed_history (race_uid track : string)
    (distance fee prize_pool : Q) (results : list Result) (db : Store)
    (sel : string) :
  join_race_results
    (mkStore (apply_deltas (merged_frame fee results) (TEAMS db)) (CARS db)
       (RACES db ++ [Races.mk race_uid track distance fee prize_pool])
       (RACE_RESULTS db ++ map (result_row race_uid) results)) sel =
  join_race_results db sel ++
  join_race_results
    (mkStore (TEAMS db) (CARS db) (RACES db)
       (map (result_row race_uid) results)) sel.
Proof.
  rewrite apply_deltas_rows, <- (map_id (CARS db)) at 1.
  rewrite (join_race_results_cars_teams (TEAMS db) (CARS db) (RACES db)).
  - rewrite join_race_results_app. now destruct db.
  - intros t. apply update_row_names.
  - auto.
Qed.

(** Round trip through the store: with distinct car ids, distinct team
    ids and a race token new to RACE_RESULTS, what the History tab shows
    for a race that completed is exactly its results, one row each, in
    position order, with the names of the car and of the team it raced
    for. *)
Theorem history_shows_the_completed_race (faults : nat -> bool)
    (track : string) (distance fee prize_pool : Q) (race_uid : string)
    (db : Store) (g : Rng) (results : list Result) (c : Conn) (g' : Rng) :
  NoDup (map Cars.CAR_ID (CARS db)) ->
  NoDup (map Teams.TEAM_ID (TEAMS db)) ->
  ~ In race_uid (map RaceResults.RACE_UID (RACE_RESULTS db)) ->
  start_race faults track distance fee prize_pool race_uid (idle db) g =
    (RaceCompleted results, c, g') ->
  select_race_results (committed c) race_uid = map shown results.
Proof.
  intros Hcars Hteams Hnew H.
  pose proof (start_race_completed _ _ _ _ _ _ _ _ _ _ _ H) as Hc.
  apply completed_results in H. destruct H as (_ & Halloc & _).
  subst c. cbn [committed]. unfold select_race_results.
  rewrite completed_history.
  assert (Hold : join_race_results db race_uid = []).
  { destruct db as [ts cs rs rrs]. now apply join_race_results_other. }
  rewrite Hold, app_nil_l.
  assert (Hjoin : join_race_results
                    (mkStore (TEAMS db) (CARS db) (RACES db)
                       (map (result_row race_uid) results)) race_uid =
                  map shown results).
  { unfold join_race_results. cbn [TEAMS CARS RACE_RESULTS].
    rewrite flat_map_over_map. apply flat_map_single.
    intros r Hr.
    destruct (result_origin _ _ _ _ _ Halloc r Hr)
      as (car & team & Hcar & Hteam & Hent).
    unfold entrant in Hent. injection Hent as Hid Hname Htid Htname.
    replace (String.eqb (RaceResults.RACE_UID (result_row race_uid r))
               race_uid) with true
      by (symmetry; apply String.eqb_refl).
    rewrite (join_one (TEAMS db) (CARS db) (result_row race_uid r) car team
               Hcars Hteams Hcar Hteam Hid Htid).
    unfold history_row, shown, result_row. cbn.
    now rewrite Hname, Htname. }
  rewrite Hjoin. exact (shown_in_order _ _ _ _ _ Halloc).
Qed.

Lemma history_shows_the_completed_race_witness :
  exists results c g',
    start_race no_faults "Riga Street Circuit" 100 1000 10000 "race-1"
      (idle demo_db) demo_rng = (RaceCompleted results, c, g') /\
    select_race_results (committed c) "race-1" = map shown results.
Proof.
  destruct (start_race no_faults "Riga Street Circuit" 100 1000 10000
              "race-1" (idle demo_db) demo_rng) as [[o c] g'] eqn:Hrun.
  assert (Ho : exists results, o = RaceCompleted results).
  { vm_compute in Hrun. injection Hrun as <- _ _. eexists. reflexivity. }
  destruct Ho as [results ->].
  exists results, c, g'. split; [reflexivity |].
  destruct demo_ids_distinct as [Hcars Hteams].
  assert (Hnew : ~ In "race-1"%string
                   (map RaceResults.RACE_UID (RACE_RESULTS demo_db)))
    by (intros []).
  exact (history_shows_the_completed_race no_faults "Riga Street Circuit"
           100 1000 10000 "race-1" demo_db demo_rng results c g'
           Hcars Hteams Hnew Hrun).
Defined.

(** A race that completed changes nothing in what the History tab shows
    for any other race token: the earlier results keep their positions,
    names, speeds, times and prizes. *)
Theorem completed_race_keeps_earlier_history (faults : nat -> bool)
    (track : string) (distance fee prize_pool : Q) (race_uid : string)
    (db : Store) (g : Rng) (results : list Result) (c : Conn) (g' : Rng)
    (sel : string) :
  sel <> race_uid ->
  start_race faults track distance fee prize_pool race_uid (idle db) g =
    (RaceCompleted results, c, g') ->
  select_race_results (committed c) sel = select_race_results db sel.
Proof.
  intros Hsel H.
  pose proof (start_race_completed _ _ _ _ _ _ _ _ _ _ _ H) as Hc.
  subst c. cbn [committed]. unfold select_race_results.
  rewrite completed_history, join_race_results_other; [now rewrite app_nil_r |].
  rewrite map_map. intros Hin. apply in_map_iff in Hin.
  destruct Hin as (r & Hr & _). apply Hsel. now rewrite <- Hr.
Qed.

Lemma completed_race_keeps_earlier_history_witness :
  exists results c g',
    start_race no_faults "Riga Street Circuit" 100 1000 10000 "race-1"
      (idle raced_db) demo_rng = (RaceCompleted results, c, g') /\
    List.length (select_race_results raced_db "race-0") = 2%nat /\
    List.length (RACE_RESULTS (committed c)) = 5%nat /\
    select_race_results (committed c) "race-0" =
    select_race_results raced_db "race-0".
Proof.
  destruct (start_race no_faults "Riga Street Circuit" 100 1000 10000
              "race-1" (idle raced_db) demo_rng) as [[o c] g'] eqn:Hrun.
  assert (Ho : exists results, o = RaceCompleted results).
  { vm_compute in Hrun. injection Hrun as <- _ _. eexists. reflexivity. }
  destruct Ho as [results ->].
  exists results, c, g'. split; [reflexivity |].
  split; [reflexivity |].
  split; [vm_compute in Hrun; injection Hrun as _ <- _; reflexivity |].
  assert (Hsel : "race-0"%string <> "race-1"%string) by discriminate.
  exact (completed_race_keeps_earlier_history no_faults
           "Riga Street Circuit" 100 1000 10000 "race-1" raced_db demo_rng
           results c g' "race-0" Hsel Hrun).
Defined.

(** However the Assign tab ends and whatever was selected, it changes
    nothing but the TEAM_ID of cars: TEAMS, RACES and RACE_RESULTS are as
    before, the cars keep their ids, names and order, and the History tab
    shows the same rows for every race, so a car that changes team keeps
    its past results under the team it raced for. *)
Theorem assign_tab_keeps_history (faults : nat -> bool)
    (sel_car sel_team : string) (db : Store) :
  let db' :=
    committed (snd (assign_tab faults sel_car sel_team (idle db))) in
  TEAMS db' = TEAMS db /\ RACES db' = RACES db /\
  RACE_RESULTS db' = RACE_RESULTS db /\
  map (fun c => (Cars.CAR_ID c, Cars.CAR_NAME c)) (CARS db') =
  map (fun c => (Cars.CAR_ID c, Cars.CAR_NAME c)) (CARS db) /\
  forall sel, select_race_results db' sel = select_race_results db sel.
Proof.
  cbv zeta.
  assert (Hup : forall tid cid,
            TEAMS (update_cars tid cid db) = TEAMS db /\
            RACES (update_cars tid cid db) = RACES db /\
            RACE_RESULTS (update_cars tid cid db) = RACE_RESULTS db /\
            map (fun c => (Cars.CAR_ID c, Cars.CAR_NAME c))
              (CARS (update_cars tid cid db)) =
            map (fun c => (Cars.CAR_ID c, Cars.CAR_NAME c)) (CARS db) /\
            forall sel, select_race_results (update_cars tid cid db) sel =
                        select_race_results db sel).
  { intros tid cid. unfold update_cars. cbn [TEAMS CARS RACES RACE_RESULTS].
    repeat split.
    - rewrite map_map. apply map_ext. intros c.
      destruct (set_team_car_id tid cid c) as [-> ->]. reflexivity.
    - intros sel. unfold select_race_results. f_equal.
      rewrite <- (map_id (TEAMS db)) at 1.
      rewrite (join_race_results_cars_teams (TEAMS db) (CARS db)
                 (RACES db)); [now destruct db | auto |].
      intros c. apply set_team_car_id. }
  assert (Hsame : TEAMS db = TEAMS db /\ RACES db = RACES db /\
            RACE_RESULTS db = RACE_RESULTS db /\
            map (fun c => (Cars.CAR_ID c, Cars.CAR_NAME c)) (CARS db) =
            map (fun c => (Cars.CAR_ID c, Cars.CAR_NAME c)) (CARS db) /\
            forall sel, select_race_results db sel =
                        select_race_results db sel) by auto.
  unfold assign_tab. change (visible (idle db)) with db.
  destruct (get_cars_df true db); [exact Hsame |].
  destruct (get_teams_df db); [exact Hsame |].
  destruct (dict_get (team_map db) sel_team) as [tid |]; [| exact Hsame].
  destruct (dict_get (car_map db) sel_car) as [cid |]; [| exact Hsame].
  unfold run_update_cars. cbn [idle issued committed txn].
  destruct (faults 0%nat); cbn [snd committed]; [exact Hsame | apply Hup].
Qed.

(** The Assign tab asks for a car and a team first exactly when CARS or
    TEAMS is empty (the left join hides no car), and then does nothing:
    the session is left as it was whatever the select boxes hold. *)
Theorem assign_tab_needs_a_car_and_a_team (faults : nat -> bool)
    (sel_car sel_team : string) (db : Store) :
  (CARS db = [] \/ TEAMS db = []) <->
  assign_tab faults sel_car sel_team (idle db) =
  (AddCarAndTeamFirst, idle db).
Proof.
  unfold assign_tab. change (visible (idle db)) with db.
  assert (Hcars : get_cars_df true db = [] <-> CARS db = []).
  { split; intros H.
    - destruct (CARS db) as [| c cs] eqn:E; [reflexivity |].
      assert (Hc : In c (CARS db)) by (rewrite E; now left).
      destruct (every_car_is_listed db c Hc) as (row & Hrow & _).
      rewrite H in Hrow. destruct Hrow.
    - apply Permutation_nil. apply Permutation_sym.
      eapply perm_trans; [apply Permutation_sym, get_cars_df_perm |].
      unfold join_cars_teams. now rewrite H. }
  assert (Hteams : get_teams_df db = [] <-> TEAMS db = []).
  { split; intros H.
    - apply Permutation_nil. rewrite <- H.
      apply Permutation_sym, get_teams_df_perm.
    - unfold get_teams_df. now rewrite H. }
  destruct (get_cars_df true db) as [| r rs].
  { split; [reflexivity |]. intros _. left. now apply Hcars. }
  destruct (get_teams_df db) as [| t ts].
  { split; [reflexivity |]. intros _. right. now apply Hteams. }
  split.
  - intros [H | H]; [apply Hcars in H | apply Hteams in H]; discriminate.
  - destruct (dict_get (team_map db) sel_team); [| discriminate].
    destruct (dict_get (car_map db) sel_car); [| discriminate].
    destruct (run_update_cars faults _ _ (idle db)) as [[e | u] c'];
      discriminate.
Qed.

(** ** Rounding to a double is monotone *)

Lemma two_power_pos (k : Z) : 0 < 2 ^ k.
Proof. apply Qpower_0_lt. reflexivity. Qed.

Lemma two_power_succ (k : Z) : 2 ^ (k + 1) == 2 * 2 ^ k.
Proof. rewrite Qpower_plus by discriminate. change (2 ^ 1) with 2. ring. Qed.

Lemma two_power_le (j k : Z) : (j <= k)%Z -> 2 ^ j <= 2 ^ k.
Proof. intros H. apply Qpower_le_compat_l; [exact H | discriminate]. Qed.

(** [binade x] is the exponent of the power of two at or below [x]. *)
Lemma binade_spec (x : Q) :
  0 < x -> 2 ^ binade x <= x /\ x < 2 ^ (binade x + 1).
Proof.
  intros Hx. destruct x as [n d].
  assert (Hn : (0 < n)%Z).
  { unfold Qlt in Hx. cbn in Hx. lia. }
  unfold binade. cbn [Qnum Qden].
  set (a := Z.log2 n). set (b := Z.log2 (Z.pos d)).
  assert (Ha0 : (0 <= a)%Z) by apply Z.log2_nonneg.
  assert (Hb0 : (0 <= b)%Z) by apply Z.log2_nonneg.
  destruct (Z.log2_spec n Hn) as [Ha1 Ha2]. fold a in Ha1, Ha2.
  destruct (Z.log2_spec (Z.pos d) eq_refl) as [Hb1 Hb2]. fold b in Hb1, Hb2.
  rewrite Z.pow_succ_r in Ha2, Hb2 by assumption.
  rewrite Zle_Qle in Ha1, Hb1. rewrite Zlt_Qlt in Ha2, Hb2.
  rewrite inject_Z_mult in Ha2, Hb2.
  rewrite <- !two_power in Ha1, Ha2, Hb1, Hb2 by assumption.
  change (inject_Z 2) with 2 in Ha2, Hb2.
  pose proof (two_power_pos a) as Hpa. pose proof (two_power_pos b) as Hpb.
  assert (Hk : 2 ^ (a - b) == 2 ^ a / 2 ^ b)
    by (apply Qpower_minus; discriminate).
  assert (Hd : 0 < inject_Z (Z.pos d)) by reflexivity.
  assert (Hxq : n # d == inject_Z n / inject_Z (Z.pos d))
    by apply Qmake_Qdiv.
  set (N := inject_Z n) in *. set (D := inject_Z (Z.pos d)) in *.
  set (A := 2 ^ a) in *. set (B := 2 ^ b) in *.
  assert (Hup : N / D < 2 * (A / B)).
  { apply Qlt_shift_div_r; [exact Hd |].
    assert (E : 2 * (A / B) * D == (2 * A * D) / B) by (field; lra).
    rewrite E. apply Qlt_shift_div_l; [exact Hpb |]. nra. }
  assert (Hlo : A / B <= 2 * (N / D)).
  { apply Qle_shift_div_r; [exact Hpb |].
    assert (E : 2 * (N / D) * B == (2 * N * B) / D) by (field; lra).
    rewrite E. apply Qle_shift_div_l; [exact Hd |]. nra. }
  destruct (Qle_bool (2 ^ (a - b)) (n # d)) eqn:E.
  - apply Qle_bool_iff in E. split; [exact E |].
    rewrite two_power_succ, Hk, Hxq. exact Hup.
  - assert (Hlt : n # d < 2 ^ (a - b)).
    { apply Qnot_le_lt. intros H. apply Qle_bool_iff in H. congruence. }
    replace (a - b - 1 + 1)%Z with (a - b)%Z by lia.
    split; [| exact Hlt].
    assert (E2 : 2 ^ (a - b) == 2 * 2 ^ (a - b - 1)).
    { rewrite <- two_power_succ. now replace (a - b - 1 + 1)%Z
        with (a - b)%Z by lia. }
    rewrite Hk in E2. rewrite Hxq. lra.
Qed.

Lemma binade_monotone (x y : Q) :
  0 < x -> x <= y -> (binade x <= binade y)%Z.
Proof.
  intros Hx Hxy.
  destruct (binade_spec x Hx) as [Hx1 _].
  destruct (binade_spec y) as [_ Hy2]; [lra |].
  assert (H : 2 ^ binade x < 2 ^ (binade y + 1)) by lra.
  apply Qpower_lt_compat_l_inv in H; [lia | reflexivity].
Qed.

Lemma Qabs_of_pos (x : Q) : 0 < x -> Qabs x = x.
Proof.
  destruct x as [[| p | p] d]; intros H; try reflexivity;
    unfold Qlt in H; cbn in H; lia.
Qed.

(** A positive number rounds to its significand at the exponent of its
    binade, or at the exponent of the subnormals. *)
Lemma fl_pos (x : Q) :
  0 < x ->
  fl x =
  inject_Z (round_half_even (x / 2 ^ Z.max (binade x - 52) (-1074))) *
  2 ^ Z.max (binade x - 52) (-1074).
Proof.
  intros Hx. unfold fl.
  assert (H0 : Qeq_bool x 0 = false).
  { destruct (Qeq_bool x 0) eqn:E; [| reflexivity].
    apply Qeq_bool_iff in E. lra. }
  assert (Hneg : Qlt_bool x 0 = false) by (apply Qlt_bool_false; lra).
  now rewrite H0, Hneg, (Qabs_of_pos x Hx).
Qed.

Lemma round_half_even_two_power (m : Z) :
  (0 <= m)%Z -> round_half_even (2 ^ m) = (2 ^ m)%Z.
Proof. intros Hm. apply round_half_even_Z, two_power, Hm. Qed.

Lemma fl_monotone_pos (x y : Q) : 0 < x -> x <= y -> fl x <= fl y.
Proof.
  intros Hx Hxy.
  assert (Hy : 0 < y) by lra.
  rewrite (fl_pos x Hx), (fl_pos y Hy).
  pose proof (binade_monotone x y Hx Hxy) as Hb.
  destruct (binade_spec x Hx) as [_ Hx2].
  destruct (binade_spec y Hy) as [Hy1 _].
  set (bx := binade x) in *. set (b := binade y) in *.
  set (ex := Z.max (bx - 52) (-1074)). set (ey := Z.max (b - 52) (-1074)).
  pose proof (two_power_pos ex) as Hpx. pose proof (two_power_pos ey) as Hpy.
  destruct (Z.eq_dec ex ey) as [He | He].
  - rewrite <- He.
    assert (Hq : x / 2 ^ ex <= y / 2 ^ ex).
    { apply Qle_shift_div_l; [exact Hpx |].
      unfold Qdiv. rewrite <- Qmult_assoc, (Qmult_comm (/ _)),
        Qmult_inv_r by lra. lra. }
    apply round_half_even_monotone in Hq. rewrite Zle_Qle in Hq. nra.
  - assert (Hlt : (ex < ey)%Z) by (unfold ex, ey in *; lia).
    assert (Hey : ey = (b - 52)%Z) by (unfold ex, ey in *; lia).
    assert (Hbx : (bx + 1 <= b)%Z) by (unfold ex, ey in *; lia).
    (* the larger one is at least 2^b *)
    assert (Hbig : 2 ^ b <= inject_Z (round_half_even (y / 2 ^ ey)) * 2 ^ ey).
    { assert (Hq : 2 ^ 52 <= y / 2 ^ ey).
      { apply Qle_shift_div_l; [exact Hpy |].
        rewrite <- Qpower_plus by discriminate.
        now replace (52 + ey)%Z with b by lia. }
      apply round_half_even_monotone in Hq.
      rewrite round_half_even_two_power in Hq by lia.
      rewrite Zle_Qle, <- two_power in Hq by lia.
      assert (E : 2 ^ b == 2 ^ 52 * 2 ^ ey).
      { rewrite <- Qpower_plus by discriminate.
        now replace (52 + ey)%Z with b by lia. }
      rewrite E. nra. }
    (* the smaller one is at most 2^b *)
    set (m := Z.max (bx + 1 - ex) 0).
    assert (Hm0 : (0 <= m)%Z) by (unfold m; lia).
    assert (Hsmall : inject_Z (round_half_even (x / 2 ^ ex)) * 2 ^ ex
                     <= 2 ^ b).
    { assert (Hq : x / 2 ^ ex <= 2 ^ m).
      { apply Qle_shift_div_r; [exact Hpx |].
        rewrite <- Qpower_plus by discriminate.
        assert (2 ^ (bx + 1) <= 2 ^ (m + ex))
          by (apply two_power_le; unfold m; lia).
        lra. }
      apply round_half_even_monotone in Hq.
      rewrite round_half_even_two_power in Hq by exact Hm0.
      rewrite Zle_Qle, <- two_power in Hq by exact Hm0.
      assert (E : 2 ^ m * 2 ^ ex <= 2 ^ b).
      { rewrite <- Qpower_plus by discriminate.
        apply two_power_le. unfold m, ex, ey in *. lia. }
      nra. }
    lra.
Qed.

Lemma fl_zero (x : Q) : x == 0 -> fl x = 0.
Proof.
  intros H. unfold fl.
  assert (E : Qeq_bool x 0 = true) by (now apply Qeq_bool_iff).
  now rewrite E.
Qed.

Lemma fl_nonneg (x : Q) : 0 <= x -> 0 <= fl x.
Proof.
  intros Hx. destruct (Qeq_dec x 0) as [E | E].
  - rewrite (fl_zero x E). lra.
  - assert (Hpos : 0 < x) by lra.
    rewrite (fl_pos x Hpos).
    pose proof (two_power_pos (Z.max (binade x - 52) (-1074))) as Hp.
    assert (Hq : 0 <= x / 2 ^ Z.max (binade x - 52) (-1074))
      by (apply Qle_shift_div_l; lra).
    apply round_half_even_nonneg in Hq. rewrite Zle_Qle in Hq.
    change (inject_Z 0) with 0 in Hq. nra.
Qed.

Lemma fl_monotone (x y : Q) : x <= y -> fl x <= fl y.
Proof.
  intros Hxy.
  destruct (Qlt_le_dec 0 x) as [Hx | Hx].
  - now apply fl_monotone_pos.
  - destruct (Qlt_le_dec y 0) as [Hy | Hy].
    + assert (H : fl (- y) <= fl (- x)) by (apply fl_monotone_pos; lra).
      rewrite !fl_opp in H. lra.
    + assert (H1 : fl x <= 0).
      { assert (H : 0 <= fl (- x)) by (apply fl_nonneg; lra).
        rewrite fl_opp in H. lra. }
      pose proof (fl_nonneg y Hy). lra.
Qed.

(** Doubles the model gives: 0.1, 100.05, the sum 0.1 + 0.2 and the
    product 100.05 * 0.3; the integers around 2^53 + 2, where doubles are 4
    apart at odd multiples of 2 (ties go to the even significand); the
    smallest subnormal 2^-1074, half of which rounds to 0 and three halves
    of which round to 2^-1073. *)
Example fl_known_doubles :
  fl 0.1 == 3602879701896397 # 36028797018963968 /\
  fl 100.05 == 7040392854975283 # 70368744177664 /\
  fadd (fl 0.1) (fl 0.2) == 1351079888211149 # 4503599627370496 /\
  fmul (fl 100.05) (fl 0.3) == 8448471425970339 # 281474976710656 /\
  fl (- (1 # 3)) == - (6004799503160661 # 18014398509481984) /\
  fl (inject_Z (2 ^ 53 + 1)) == inject_Z (2 ^ 53) /\
  fl (inject_Z (2 ^ 53 + 3)) == inject_Z (2 ^ 53 + 4) /\
  fl (2 ^ (-1074)) == 2 ^ (-1074) /\
  fl (2 ^ (-1075)) == 0 /\
  fl (3 * 2 ^ (-1075)) == 2 ^ (-1073).
Proof.
  repeat (split; [vm_compute; reflexivity |]). vm_compute. reflexivity.
Qed.

(** ** Rounding to decimal places *)

Lemma round_half_even_nearest (y : Q) : nearest_even (round_half_even y) y.
Proof.
  unfold nearest_even, round_half_even.
  pose proof (Qfloor_le y) as Hlo. pose proof (Qlt_floor y) as Hhi.
  rewrite inject_Z_plus in Hhi. change (inject_Z 1) with 1 in Hhi.
  set (f := Qfloor y) in *.
  case_Qlt (y - inject_Z f) (1 # 2).
  - split.
    + apply Qabs_Qle_condition. split; lra.
    + intros Ht. rewrite Qabs_neg in Ht by lra. lra.
  - case_Qlt (1 # 2) (y - inject_Z f).
    + rewrite inject_Z_plus. change (inject_Z 1) with 1. split.
      * apply Qabs_Qle_condition. split; lra.
      * intros Ht. rewrite Qabs_pos in Ht by lra. lra.
    + destruct (Z.even f) eqn:Hev.
      * split; [| intros _; exact Hev].
        apply Qabs_Qle_condition. split; lra.
      * rewrite inject_Z_plus. change (inject_Z 1) with 1. split.
        -- apply Qabs_Qle_condition. split; lra.
        -- intros _. rewrite Z.add_1_r, Z.even_succ, <- Z.negb_even, Hev.
           reflexivity.
Qed.

Lemma round64_rounded_to (x : Q) (ndigits : nat) :
  rounded_to ndigits x (round64 x ndigits).
Proof.
  exists (round_half_even (x * inject_Z (10 ^ Z.of_nat ndigits))).
  split; [apply round_half_even_nearest | reflexivity].
Qed.

(** ** The allocator in binary64 *)

(** C5, for the doubles the program computes: on a ranked sequence
    (positions from 1 up) the allocator returns a result for each entry,
    in order; the entry at position p receives, when p is at most the
    length of the split curve, the double product of the prize pool and
    the (p-1)-th fraction rounded to 2 decimal places (the nearest whole
    number of cents, the even one at a tie, as a double), and 0 otherwise.
    So a pool of 100.05 split 60/30/10 pays the doubles 60.03, 30.01 and
    10.01 (the products are the doubles just below 30.015 and just above
    10.005), and a pool of 0.125 paid in full is the tie that goes to 0.12. *)
Theorem allocate_pays_rounded_product_by_position
    (l : list Ranked) (prize_pool : Q) (split : list Q) :
  Forall (fun r => (1 <= POSITION r)%Z) l ->
  (exists results,
     F64.allocate l prize_pool split = Some results /\
     map ranked results = l /\
     Forall
       (fun r =>
          let p := POSITION (ranked r) in
          if (p <=? Z.of_nat (List.length split))%Z
          then exists f,
                 nth_error split (Z.to_nat (p - 1)) = Some f /\
                 rounded_to 2 (fmul (fl prize_pool) (fl f)) (PRIZE_USD r)
          else PRIZE_USD r = 0.0)
       results) /\
  Forall2 Qeq (F64.prize_table 100.05 F64.prize_split)
    [2112117856492585 # 35184372088832;
     8447064051086787 # 281474976710656;
     5635129033747333 # 562949953421312] /\
  Forall2 Qeq (F64.prize_table 0.125 [1.0])
    [1080863910568919 # 9007199254740992].
Proof.
  intros Hl. split; [| split].
  - unfold F64.allocate. rewrite (assign_prizes_by_position _ _ Hl).
    eexists. split; [reflexivity |]. split.
    + rewrite map_map. simpl. apply map_id.
    + rewrite Forall_map. eapply Forall_impl; [| exact Hl].
      intros r Hr. cbv beta in Hr. cbn [ranked PRIZE_USD]. cbv zeta.
      unfold prize_at, F64.prize_table.
      destruct (POSITION r <=? Z.of_nat (List.length split))%Z eqn:Hle.
      * apply Z.leb_le in Hle.
        destruct (nth_error split (Z.to_nat (POSITION r - 1)))
          as [f |] eqn:Hf.
        -- exists f. split; [reflexivity |].
           erewrite nth_error_nth;
             [apply round64_rounded_to
             | rewrite nth_error_map, Hf; reflexivity].
        -- apply nth_error_None in Hf. lia.
      * apply Z.leb_gt in Hle. apply nth_overflow. rewrite length_map. lia.
  - vm_compute. repeat constructor.
  - vm_compute. repeat constructor.
Qed.

Lemma allocate_pays_rounded_product_by_position_witness :
  exists results,
    F64.allocate
      (assign_positions [mkFinisher 7 "Lightning X" 1 "Red" 201.39 29.792])
      10000 F64.prize_split = Some results /\
    map ranked results =
      assign_positions [mkFinisher 7 "Lightning X" 1 "Red" 201.39 29.792] /\
    Forall
      (fun r =>
         let p := POSITION (ranked r) in
         if (p <=? Z.of_nat (List.length F64.prize_split))%Z
         then exists f,
                nth_error F64.prize_split (Z.to_nat (p - 1)) = Some f /\
                rounded_to 2 (fmul (fl 10000) (fl f)) (PRIZE_USD r)
         else PRIZE_USD r = 0.0)
      results.
Proof.
  apply (allocate_pays_rounded_product_by_position
           (assign_positions [mkFinisher 7 "Lightning X" 1 "Red" 201.39 29.792])
           10000 F64.prize_split).
  repeat constructor. simpl. lia.
Defined.

(** ** The ranking in binary64 *)

Lemma effective_speed64_tape (top accel rel hand : Q) (g : Rng) :
  tape (snd (F64.effective_speed top accel rel hand g)) = tape g.
Proof.
  unfold F64.effective_speed, F64.np_random_normal, F64.np_random_rand,
    F64.np_random_uniform, draw.
  destruct (Qlt_bool rel _); reflexivity.
Qed.

Lemma simulate64_ranking (distance : Q) (cars : list CarsDf.row) (g : Rng) :
  fst (F64.simulate distance cars g) =
  number (sort_by_time (fst (F64.run_cars distance cars g))) 1.
Proof.
  unfold F64.simulate. destruct (F64.run_cars distance cars g). reflexivity.
Qed.

Lemma run_cars64_records (distance : Q) (cars : list CarsDf.row) (g : Rng) :
  Forall2 (records64 distance g) cars (fst (F64.run_cars distance cars g)).
Proof.
  assert (H : forall g0, same_tape g g0 ->
            Forall2 (records64 distance g) cars
              (fst (F64.run_cars distance cars g0))).
  { induction cars as [| row cars IH]; intros g0 Hg0; simpl.
    - constructor.
    - unfold F64.run_car.
      pose proof (effective_speed64_tape (fl (CarsDf.TOP_SPEED_KMH row))
                    (fl (CarsDf.ACCEL_0_100_S row))
                    (fl (CarsDf.RELIABILITY row))
                    (fl (CarsDf.HANDLING row)) g0) as Ht.
      pose (s := F64.effective_speed (fl (CarsDf.TOP_SPEED_KMH row))
                   (fl (CarsDf.ACCEL_0_100_S row))
                   (fl (CarsDf.RELIABILITY row))
                   (fl (CarsDf.HANDLING row)) g0).
      assert (Hs : fst s = fst (F64.effective_speed
                   (fl (CarsDf.TOP_SPEED_KMH row))
                   (fl (CarsDf.ACCEL_0_100_S row))
                   (fl (CarsDf.RELIABILITY row))
                   (fl (CarsDf.HANDLING row)) g0)) by reflexivity.
      fold s in Ht |- *. destruct s as [speed g1]. simpl in Ht, Hs.
      assert (Hg1 : same_tape g g1).
      { unfold same_tape in *. congruence. }
      specialize (IH g1 Hg1).
      destruct (F64.run_cars distance cars g1) as [rs g2]. simpl in *.
      constructor; [| exact IH].
      exists g0. split; [exact Hg0 |]. cbv zeta. rewrite <- Hs.
      split; apply round64_rounded_to. }
  apply H. reflexivity.
Qed.

(** C10, for the doubles the program computes: each result records the
    effective speed rounded to 2 decimal places and the time of line 219
    rounded to 3 (the nearest multiple, the even one at a tie, as a
    double); the ranking is in ascending order of the recorded times with
    positions increasing along it; and for every time value, the results
    recorded with that time appear in the ranking in the order of their
    entries.  The recorded time decides, not the computed one: of two cars
    over 10 km the second entered has the smaller computed time, both
    record the double 2.979, and the first entered takes position 1.  A
    car held at 60 km/h over 15.5625 km records the double 15.563: the
    double quotient times 60 lies above the tie 15.5625. *)
Theorem ranking_uses_recorded_time_and_is_stable
    (distance : Q) (cars : list CarsDf.row) (g : Rng) :
  let results := fst (F64.run_cars distance cars g) in
  let ranking := fst (F64.simulate distance cars g) in
  Forall2 (records64 distance g) cars results /\
  StronglySorted ahead ranking /\
  (forall t,
     map finisher (filter (fun r => has_time t (finisher r)) ranking) =
     filter (has_time t) results) /\
  (computed_time 10 lightning_y 2 < computed_time 10 lightning_x 0 /\
   Forall2
     (fun r expected =>
        CAR_ID (finisher r) = fst (fst expected) /\
        POSITION r = snd (fst expected) /\
        FINISH_TIME_MIN (finisher r) == snd expected)
     (fst (F64.simulate 10 twin_cars demo_rng))
     [(1%Z, 1%Z, 3354055822484177 # 1125899906842624);
      (2%Z, 2%Z, 3354055822484177 # 1125899906842624)]) /\
  Forall2
    (fun r expected =>
       AVG_SPEED_KMH r == fst expected /\ FINISH_TIME_MIN r == snd expected)
    (fst (F64.run_cars 15.5625 [slow_car] demo_rng))
    [(60, 8761190125095879 # 562949953421312)].
Proof.
  cbv zeta. rewrite simulate64_ranking.
  split; [| split; [| split; [| split; [split |]]]].
  - apply run_cars64_records.
  - apply number_sorted, sort_by_time_sorted.
  - intros t. rewrite number_filter. apply sort_by_time_stable.
  - vm_compute. reflexivity.
  - remember (fst (F64.simulate 10 twin_cars demo_rng)) as l eqn:E.
    vm_compute in E. subst l.
    repeat constructor; solve [reflexivity | vm_compute; reflexivity].
  - remember (fst (F64.run_cars 15.5625 [slow_car] demo_rng)) as l eqn:E.
    vm_compute in E. subst l.
    repeat constructor; solve [reflexivity | vm_compute; reflexivity].
Qed.

(** ** What a result records, in binary64 *)

Lemma effective_speed64_range (top accel rel hand : Q) (g : Rng) :
  let speed := fst (F64.effective_speed top accel rel hand g) in
  60 <= speed /\ (60 <= top -> speed <= top).
Proof.
  assert (H60 : fl 60.0 == 60) by (vm_compute; reflexivity).
  unfold F64.effective_speed, F64.np_random_normal, F64.np_random_rand,
    F64.np_random_uniform, draw.
  destruct (Qlt_bool rel _); cbn [fst]; (split;
    [ rewrite <- H60 at 1; apply py_max_lower
    | intros Htop; apply py_max_upper; [lra | apply py_min_upper] ]).
Qed.

Lemma run_car64_bounds (distance : Q) (row : CarsDf.row) (g : Rng) :
  0 <= distance ->
  let r := fst (F64.run_car distance row g) in
  60 <= AVG_SPEED_KMH r /\
  (60 <= CarsDf.TOP_SPEED_KMH row ->
   AVG_SPEED_KMH r <= round64 (fl (CarsDf.TOP_SPEED_KMH row)) 2) /\
  0 <= FINISH_TIME_MIN r.
Proof.
  intros Hd. cbv zeta. unfold F64.run_car.
  pose proof (effective_speed64_range (fl (CarsDf.TOP_SPEED_KMH row))
                (fl (CarsDf.ACCEL_0_100_S row)) (fl (CarsDf.RELIABILITY row))
                (fl (CarsDf.HANDLING row)) g) as [Hlo Hhi].
  destruct (F64.effective_speed _ _ _ _ g) as [speed g'].
  cbn [fst] in *. cbn [AVG_SPEED_KMH FINISH_TIME_MIN].
  assert (H60 : fl 60 == 60) by (vm_compute; reflexivity).
  assert (R60 : round 60 2 == 60) by (vm_compute; reflexivity).
  unfold round64. repeat split.
  - rewrite <- H60 at 1. apply fl_monotone.
    rewrite <- R60. now apply round_monotone.
  - intros Htop. apply fl_monotone, round_monotone, Hhi.
    rewrite <- H60. now apply fl_monotone.
  - apply fl_nonneg, round_nonneg. unfold F64.time_min, fmul, fdiv.
    apply fl_nonneg.
    assert (H : 0 <= fl (fl distance / speed)).
    { apply fl_nonneg, Qle_shift_div_l; [lra |].
      rewrite Qmult_0_l. now apply fl_nonneg. }
    assert (H' : 0 <= fl 60.0) by (apply fl_nonneg; lra).
    nra.
Qed.

(** Every result records, in binary64, a speed of at least 60 and, when
    the distance is not negative, a finish time that is not negative; a
    car whose top speed is at least 60 records at most its top speed
    rounded to 2 places. *)
Theorem recorded_speed_and_time_bounds
    (distance : Q) (cars : list CarsDf.row) (g : Rng) :
  0 <= distance ->
  Forall2
    (fun row r =>
       60 <= AVG_SPEED_KMH r /\
       (60 <= CarsDf.TOP_SPEED_KMH row ->
        AVG_SPEED_KMH r <= round64 (fl (CarsDf.TOP_SPEED_KMH row)) 2) /\
       0 <= FINISH_TIME_MIN r)
    cars (fst (F64.run_cars distance cars g)).
Proof.
  intros Hd. revert g.
  induction cars as [| row cars IH]; intros g; cbn [F64.run_cars].
  - constructor.
  - pose proof (run_car64_bounds distance row g Hd) as Hrow.
    destruct (F64.run_car distance row g) as [r g1].
    specialize (IH g1).
    destruct (F64.run_cars distance cars g1) as [rs g2].
    constructor; assumption.
Qed.

Lemma recorded_speed_and_time_bounds_witness :
  Forall2
    (fun row r =>
       60 <= AVG_SPEED_KMH r /\
       (60 <= CarsDf.TOP_SPEED_KMH row ->
        AVG_SPEED_KMH r <= round64 (fl (CarsDf.TOP_SPEED_KMH row)) 2) /\
       0 <= FINISH_TIME_MIN r)
    (select_cars_join_teams demo_db)
    (fst (F64.run_cars 100 (select_cars_join_teams demo_db) demo_rng)).
Proof.
  apply (recorded_speed_and_time_bounds 100 (select_cars_join_teams demo_db)
           demo_rng).
  vm_compute. discriminate.
Defined.

(** ** The [try] block from any session without an open transaction *)




(** ** Entries counted in the race frame *)






(** ** Balances after a race, ids exact *)






(** C1 fails in the code for a team id that no double holds.  On a store
    whose only racing team has the id 2^53 + 1, next to a team with the id
    2^53 that has no car, the race completes; the racing team is owed its
    prize of 6000 minus one fee of 1000, yet its balance stays at 10000,
    and the balance of the team that did not race moves from 10000 to
    15000: the update of line 258 carries [int] of the id read from a
    float64 row, 2^53. *)
Theorem wide_team_id_misses_its_delta :
  exists results c g' red blue,
    start_race no_faults "Riga Street Circuit" 100 1000 10000 "race-1"
      (idle wide_db) demo_rng = (RaceCompleted results, c, g') /\
    map team_of results = [9007199254740993%Z] /\
    owed 1000 (select_cars_join_teams wide_db) results 9007199254740993
      == 5000 /\
    frame_entries 9007199254740992 (select_cars_join_teams wide_db) = 0%Z /\
    row_team_id (merged_row 1000 results 9007199254740993) =
      9007199254740992%Z /\
    TEAMS (committed c) = [red; blue] /\
    Teams.TEAM_ID red = 9007199254740993%Z /\
    Teams.BUDGET red == 10000 /\
    Teams.TEAM_ID blue = 9007199254740992%Z /\
    Teams.BUDGET blue == 15000.
Proof.
  destruct (start_race no_faults "Riga Street Circuit" 100 1000 10000
              "race-1" (idle wide_db) demo_rng) as [[o c] g'] eqn:Hrun.
  vm_compute in Hrun. injection Hrun as <- <- <-.
  do 5 eexists. split; [reflexivity |].
  split; [reflexivity |].
  split; [vm_compute; reflexivity |].
  split; [reflexivity |].
  split; [vm_compute; reflexivity |].
  split; [reflexivity |].
  split; [reflexivity |].
  split; [vm_compute; reflexivity |].
  split; [reflexivity |].
  vm_compute; reflexivity.
Qed.

(** ** All or nothing *)








(** What the open transaction leads to: the next press runs its BEGIN
    inside it, and its COMMIT commits the first race with one of its
    three balance deltas: team 1 has its 2000 of both races, team 3 its
    5000 of the second race only. *)
Example next_press_commits_the_partial_settlement :
  let press uid :=
    start_race update_and_rollback_fail "Riga Street Circuit" 100 1000 10000
      uid in
  let first := press "race-1"%string (idle demo_db) demo_rng in
  let second := press "race-2"%string (snd (fst first)) (snd first) in
  fst (fst first) = Uncaught (DatabaseError 7) /\
  (exists results, fst (fst second) = RaceCompleted results) /\
  txn (snd (fst second)) = None /\
  map Races.RACE_UID (RACES (committed (snd (fst second)))) =
    ["race-1"; "race-2"]%string /\
  map RaceResults.RACE_UID (RACE_RESULTS (committed (snd (fst second)))) =
    ["race-1"; "race-1"; "race-1"; "race-2"; "race-2"; "race-2"]%string /\
  Forall2 Qeq
    (map Teams.BUDGET (TEAMS (committed (snd (fst second)))))
    [14000; 10000; 15000; 500].
Proof.
  cbv beta zeta.
  remember (start_race _ _ _ _ _ "race-1"%string _ _) as first eqn:H1.
  vm_compute in H1. subst first. cbn [fst snd].
  remember (start_race _ _ _ _ _ "race-2"%string _ _) as second eqn:H2.
  vm_compute in H2. subst second. cbn [fst snd committed txn RACES
    RACE_RESULTS TEAMS map Races.RACE_UID RaceResults.RACE_UID Teams.BUDGET].
  split; [reflexivity |]. split; [eexists; reflexivity |].
  repeat split. repeat constructor; reflexivity.
Qed.
